(** * Name and label reconciliation scripts of the Hololive KakaoTalk bot

    A shallow embedding of the five maintenance scripts

    - [scripts/fix_japanese_labels.py]   (module [FixJapaneseLabels]),
    - [fix_japanese_hashtag_labels.py]   (module [FixJapaneseHashtagLabels]),
    - [sync_official_names.py]           (module [SyncOfficialNames]),
    - [update_members.py]                (module [UpdateMembers]),
    - [fix_korean_names.py]              (module [FixKoreanNames]),

    followed by the properties of the reconciliation engine that the
    design document states about them.

    Python [str] values are sequences of Unicode code points; they are
    modelled as lists of code points ([list N]).  String constants of the
    scripts are written as UTF-8 literals and decoded by [u]. *)

From Stdlib Require Import List NArith ZArith String Ascii Bool Arith Lia.
From Stdlib Require Import PrimFloat.
Import ListNotations.

Set Implicit Arguments.

(* ================================================================== *)
(** * Python strings *)
(* ================================================================== *)

Module PyStr.

Definition pystr := list N.

(** Decoding of a UTF-8 byte sequence into code points (one to four
    bytes per code point; a truncated tail is dropped). *)
Fixpoint utf8_decode (bs : list N) : pystr :=
  match bs with
  | [] => []
  | b0 :: r0 =>
    if (b0 <? 128)%N then b0 :: utf8_decode r0
    else match r0 with
    | [] => []
    | b1 :: r1 =>
      if (b0 <? 224)%N then
        (N.lor (N.shiftl (N.land b0 31) 6) (N.land b1 63)) :: utf8_decode r1
      else match r1 with
      | [] => []
      | b2 :: r2 =>
        if (b0 <? 240)%N then
          (N.lor (N.shiftl (N.land b0 15) 12)
             (N.lor (N.shiftl (N.land b1 63) 6) (N.land b2 63)))
            :: utf8_decode r2
        else match r2 with
        | [] => []
        | b3 :: r3 =>
          (N.lor (N.shiftl (N.land b0 7) 18)
             (N.lor (N.shiftl (N.land b1 63) 12)
                (N.lor (N.shiftl (N.land b2 63) 6) (N.land b3 63))))
            :: utf8_decode r3
        end
      end
    end
  end.

(** A string constant of the source. *)
Definition u (s : string) : pystr :=
  utf8_decode (map N_of_ascii (list_ascii_of_string s)).

(** [x == y] on strings. *)
Fixpoint str_eqb (x y : pystr) : bool :=
  match x, y with
  | [], [] => true
  | a :: x', b :: y' => (a =? b)%N && str_eqb x' y'
  | _, _ => false
  end.

(** [s.startswith(p)]. *)
Fixpoint startswith (s p : pystr) {struct p} : bool :=
  match p with
  | [] => true
  | a :: p' =>
    match s with
    | [] => false
    | b :: s' => (a =? b)%N && startswith s' p'
    end
  end.

(** [x in y] for two strings: [x] occurs in [y] as a contiguous run. *)
Fixpoint py_in (x y : pystr) : bool :=
  startswith y x ||
  match y with
  | [] => false
  | _ :: y' => py_in x y'
  end.

(** [x in l] for a string and a list of strings. *)
Definition list_in (x : pystr) (l : list pystr) : bool :=
  existsb (str_eqb x) l.

(** The scan of [str.replace] for a non-empty [old]: occurrences are
    taken left to right without overlap.  [skip] counts the characters
    of the occurrence just replaced that are still to be passed over. *)
Fixpoint replace_from (old new : pystr) (skip : nat) (s : pystr) : pystr :=
  match s with
  | [] => []
  | c :: s' =>
    match skip with
    | S k => replace_from old new k s'
    | O =>
      if startswith s old
      then new ++ replace_from old new (List.length old - 1) s'
      else c :: replace_from old new 0 s'
    end
  end.

(** [s.replace(old, new)].  With an empty [old] Python inserts [new]
    before every character and at the end. *)
Definition replace (s old new : pystr) : pystr :=
  match old with
  | [] => new ++ flat_map (fun c => c :: new) s
  | _ :: _ => replace_from old new 0 s
  end.

(** The characters matched by [\s] in a [str] pattern
    (the code points for which [str.isspace] holds). *)
Definition is_space (c : N) : bool :=
  ((9 <=? c) && (c <=? 13) || (28 <=? c) && (c <=? 32)
   || (c =? 133) || (c =? 160) || (c =? 5760)
   || (8192 <=? c) && (c <=? 8202)
   || (c =? 8232) || (c =? 8233) || (c =? 8239) || (c =? 8287)
   || (c =? 12288))%N.

Definition colon : N := 58.
Definition space : N := 32.

(** Number of leading characters of [s] matched by a greedy [\s*]. *)
Fixpoint span_ws (s : pystr) : nat :=
  match s with
  | [] => 0
  | c :: s' => if is_space c then S (span_ws s') else 0
  end.

(** Length of the match of [\s*:\s*] at the start of [s], if any.
    A colon is not white space, so the greedy [\s*] never has to give
    characters back. *)
Definition colon_tail (s : pystr) : option nat :=
  let n := span_ws s in
  match skipn n s with
  | c :: r => if (c =? colon)%N then Some (n + 1 + span_ws r) else None
  | [] => None
  end.

(** The scan of [re.sub(r':\s*:\s*', ': ', s)]: matches are taken left
    to right without overlap; [skip] as in [replace_from]. *)
Fixpoint sub_colons_from (skip : nat) (s : pystr) : pystr :=
  match s with
  | [] => []
  | c :: s' =>
    match skip with
    | S k => sub_colons_from k s'
    | O =>
      if (c =? colon)%N then
        match colon_tail s' with
        | Some n => colon :: space :: sub_colons_from n s'
        | None => c :: sub_colons_from 0 s'
        end
      else c :: sub_colons_from 0 s'
    end
  end.

(** [re.sub(r':\s*:\s*', ': ', s)]. *)
Definition sub_colons (s : pystr) : pystr := sub_colons_from 0 s.

(** [re.search(r':\s*:\s*', s) is not None]. *)
Fixpoint has_colon_run (s : pystr) : bool :=
  match s with
  | [] => false
  | c :: s' =>
    ((c =? colon)%N && match colon_tail s' with Some _ => true | None => false end)
    || has_colon_run s'
  end.

End PyStr.

Import PyStr.

(* ================================================================== *)
(** * scripts/fix_japanese_labels.py *)
(* ================================================================== *)

Module FixJapaneseLabels.

(** The [replacements] dict of [fix_hashtag_labels], in insertion
    order (the order in which [dict.items()] yields it). *)
Definition replacements : list (pystr * pystr) := Eval vm_compute in
  [ (u "配信タグ：", u "방송 태그: ");
    (u "配信タグ:", u "방송 태그: ");
    (u "配信タグ", u "방송 태그: ");
    (u "ファンアートタグ：", u "팬아트 태그: ");
    (u "ファンアートタグ:", u "팬아트 태그: ");
    (u "ファンアート：", u "팬아트 태그: ");
    (u "ファンアート:", u "팬아트 태그: ");
    (u "ファンアート", u "팬아트 태그: ");
    (u "アートタグ：", u "팬아트 태그: ");
    (u "アートタグ :", u "팬아트 태그: ");
    (u "アートタグ", u "팬아트 태그: ");
    (u "切り抜き動画：", u "클립: ");
    (u "切り抜き動画:", u "클립: ");
    (u "切り抜き：", u "클립: ");
    (u "切り抜き:", u "클립: ");
    (u "ミーム投稿：", u "밈: ");
    (u "ミーム投稿:", u "밈: ");
    (u "ミーム：", u "밈: ");
    (u "ミーム:", u "밈: ");
    (u "楽曲感想：", u "악곡 감상: ");
    (u "楽曲感想:", u "악곡 감상: ");
    (u "歌の感想：", u "악곡 감상: ");
    (u "歌の感想:", u "악곡 감상: ");
    (u "ボイス感想：", u "보이스 감상: ");
    (u "ボイス感想:", u "보이스 감상: ");
    (u "ショート：", u "쇼트: ");
    (u "ショート:", u "쇼트: ");
    (u "MMD作品：", u "MMD 작품: ");
    (u "MMD作品:", u "MMD 작품: ");
    (u "マイクラ投稿：", u "마인크래프트: ");
    (u "マイクラ投稿:", u "마인크래프트: ");
    (u "ホロリー＆聖地巡礼：", u "홀로리 & 성지순례: ");
    (u "ホロリー＆聖地巡礼:", u "홀로리 & 성지순례: ");
    (u "ファンネーム：", u "팬 이름: ");
    (u "ファンネーム:", u "팬 이름: ");
    (u "정기방송：", u "정기방송: ");
    (u "밈：", u "밈: ") ].

(** The loop [for jp_label, kr_label in replacements.items():
    result = result.replace(jp_label, kr_label)] over a table [tbl]. *)
Definition replace_all (tbl : list (pystr * pystr)) (value : pystr) : pystr :=
  fold_left (fun result p => replace result (fst p) (snd p)) tbl value.

(** [fix_hashtag_labels(value)] for a [str] argument. *)
Definition fix_hashtag_labels (value : pystr) : pystr :=
  sub_colons (replace_all replacements value).

End FixJapaneseLabels.

(* ================================================================== *)
(** * fix_japanese_hashtag_labels.py *)
(* ================================================================== *)

Module FixJapaneseHashtagLabels.

Definition LABEL_REPLACEMENTS : list (pystr * pystr) := Eval vm_compute in
  [ (u "配信タグ", u "방송 태그");
    (u "ファンアート", u "팬아트");
    (u "歌の感想", u "노래 감상");
    (u "ミーム投稿", u "밈 투고");
    (u "ミーム", u "밈");
    (u "マイクラ投稿", u "마인크래프트 투고");
    (u "切り抜き", u "클립");
    (u "切り抜き動画", u "클립 영상") ].

Definition fullwidth_colon : pystr := Eval vm_compute in u "：".

(** [fix_hashtag_labels(value)]: each label is replaced twice, once
    with a full-width and once with a half-width colon after it. *)
Definition fix_hashtag_labels (value : pystr) : pystr :=
  fold_left
    (fun result p =>
       let jp := fst p in
       let ko := snd p in
       let result := replace result (jp ++ fullwidth_colon) (ko ++ [colon; space]) in
       replace result (jp ++ [colon]) (ko ++ [colon; space]))
    LABEL_REPLACEMENTS value.

End FixJapaneseHashtagLabels.

(* ================================================================== *)
(** * Python dicts and JSON values *)
(* ================================================================== *)

Module PyDict.

(** A [dict] with string keys, in insertion order. *)
Definition dict (V : Type) := list (pystr * V).

(** [d.get(k)]. *)
Fixpoint dict_get {V : Type} (k : pystr) (d : dict V) : option V :=
  match d with
  | [] => None
  | (k', v) :: d' => if str_eqb k' k then Some v else dict_get k d'
  end.

(** [d[k] = v]: an existing key keeps its place, a new key goes last. *)
Fixpoint dict_set {V : Type} (k : pystr) (v : V) (d : dict V) : dict V :=
  match d with
  | [] => [(k, v)]
  | (k', v') :: d' =>
    if str_eqb k' k then (k', v) :: d' else (k', v') :: dict_set k v d'
  end.

(** The values [json.load] returns.  A number is an [int] ([JNum]) or
    a [float] ([JFloat]); the floats include the [NaN] and the
    infinities that [json.load] accepts. *)
#[warnings="-register-all"]
Inductive json : Type :=
| JNull
| JBool (b : bool)
| JNum (z : Z)
| JFloat (f : float)
| JStr (s : pystr)
| JList (l : list json)
| JDict (d : list (pystr * json)).

End PyDict.

Import PyDict.

(* ------------------------------------------------------------------ *)
(** ** scripts/fix_japanese_labels.py: [process_json_file] *)

Module ProcessJsonFile.

Import FixJapaneseLabels.

Definition key_data : pystr := Eval vm_compute in u "data".
Definition key_label : pystr := Eval vm_compute in u "label".
Definition key_value : pystr := Eval vm_compute in u "value".

(** The labels of the membership test of [process_json_file]. *)
Definition hashtag_labels : list pystr := Eval vm_compute in
  [ u "해시태그"; u "방송 해시태그"; u "방송 태그";
    u "팬아트 태그"; u "팬아트"; u "오시마크" ].

(** [fix_hashtag_labels(value)] on any JSON value: a value that is not
    a [str] is returned as it is. *)
Definition fix_value (value : json) : json :=
  match value with
  | JStr s => JStr (fix_hashtag_labels s)
  | _ => value
  end.

(** [label in [...]] for a JSON value against a list of strings. *)
Definition label_in (label : json) (l : list pystr) : bool :=
  match label with
  | JStr s => list_in s l
  | _ => false
  end.

(** [new_value != value] where [new_value] is [fix_value value]: two
    strings are compared; a value that is not a string is compared
    with itself, which gives [True] only for a float [NaN]. *)
Definition differs (new_value value : json) : bool :=
  match new_value, value with
  | JStr a, JStr b => negb (str_eqb a b)
  | JFloat a, JFloat b => negb (PrimFloat.eqb a b)
  | _, _ => false
  end.

Definition get_default (k : pystr) (d : dict json) : json :=
  match dict_get k d with
  | Some v => v
  | None => JStr []
  end.

(** One turn of the loop over [data['data']]: the item after the turn
    and whether the turn set [modified]. *)
Definition process_item (item : json) : json * bool :=
  match item with
  | JDict d =>
    let label := get_default key_label d in
    let value := get_default key_value d in
    if label_in label hashtag_labels then
      let new_value := fix_value value in
      if differs new_value value
      then (JDict (dict_set key_value new_value d), true)
      else (item, false)
    else (item, false)
  | _ => (item, false)
  end.

Fixpoint process_items (items : list json) (modified : bool) : list json * bool :=
  match items with
  | [] => ([], modified)
  | item :: rest =>
    let (item', m) := process_item item in
    let (rest', modified') := process_items rest (modified || m) in
    (item' :: rest', modified')
  end.

(** [process_json_file] on the loaded file content (a JSON object):
    the pair of [result['data']] and [result['modified']]. *)
Definition process_json_file (data : dict json) : dict json * bool :=
  match dict_get key_data data with
  | Some (JList items) =>
    let (items', modified) := process_items items false in
    (dict_set key_data (JList items') data, modified)
  | _ => (data, false)
  end.

End ProcessJsonFile.

(* ------------------------------------------------------------------ *)
(** ** fix_japanese_hashtag_labels.py: [process_file] *)

Module ProcessFile.

Import FixJapaneseHashtagLabels.

Definition key_data : pystr := ProcessJsonFile.key_data.
Definition key_value : pystr := ProcessJsonFile.key_value.

(** One turn of the loop of [process_file].  [None] stands for the
    [TypeError] of ['value' in item] or of [item['value']] on an item
    that is not an object. *)
Definition process_item (item : json) : option (json * bool) :=
  match item with
  | JDict d =>
    match dict_get key_value d with
    | Some (JStr original) =>
      let fixed := fix_hashtag_labels original in
      if negb (str_eqb original fixed)
      then Some (JDict (dict_set key_value (JStr fixed) d), true)
      else Some (item, false)
    | _ => Some (item, false)
    end
  | JStr s => if py_in key_value s then None else Some (item, false)
  | JList l =>
    if existsb (fun j => match j with JStr s => str_eqb key_value s | _ => false end) l
    then None else Some (item, false)
  | _ => None
  end.

Fixpoint process_items (items : list json) (modified : bool)
  : option (list json * bool) :=
  match items with
  | [] => Some ([], modified)
  | item :: rest =>
    match process_item item with
    | None => None
    | Some (item', m) =>
      match process_items rest (modified || m) with
      | None => None
      | Some (rest', modified') => Some (item' :: rest', modified')
      end
    end
  end.

(** [process_file] on the loaded file content (a JSON object): the
    content afterwards and the returned flag. *)
Definition process_file (data : dict json) : option (dict json * bool) :=
  match dict_get key_data data with
  | Some (JList items) =>
    match process_items items false with
    | None => None
    | Some (items', modified) =>
      Some (dict_set key_data (JList items') data, modified)
    end
  | _ => Some (data, false)
  end.

End ProcessFile.

(* ------------------------------------------------------------------ *)
(** ** fix_japanese_hashtag_labels.py: the combined file in [main] *)

Module ProcessCombined.

Definition key_data : pystr := ProcessJsonFile.key_data.

(** The loop over [profile['data']], counting the rewritten items in
    [modified_count].  [None] stands for a [TypeError]. *)
Fixpoint process_items (items : list json) (modified_count : nat)
  : option (list json * nat) :=
  match items with
  | [] => Some ([], modified_count)
  | item :: rest =>
    match ProcessFile.process_item item with
    | None => None
    | Some (item', m) =>
      match process_items rest (if m then S modified_count else modified_count) with
      | None => None
      | Some (rest', n) => Some (item' :: rest', n)
      end
    end
  end.

(** One turn of [for slug, profile in all_data.items()].  The test
    ['data' in profile] is a key test on an object, a substring test
    on a string, a membership test on a list and a [TypeError]
    otherwise; [profile['data']] is a [TypeError] on a string or list. *)
Definition process_profile (profile : json) (modified_count : nat)
  : option (json * nat) :=
  match profile with
  | JDict d =>
    match dict_get key_data d with
    | Some (JList items) =>
      match process_items items modified_count with
      | None => None
      | Some (items', n) => Some (JDict (dict_set key_data (JList items') d), n)
      end
    | _ => Some (profile, modified_count)
    end
  | JStr s => if py_in key_data s then None else Some (profile, modified_count)
  | JList l =>
    if existsb (fun j => match j with JStr s => str_eqb key_data s | _ => false end) l
    then None else Some (profile, modified_count)
  | _ => None
  end.

Fixpoint process_profiles (all_data : dict json) (modified_count : nat)
  : option (dict json * nat) :=
  match all_data with
  | [] => Some ([], modified_count)
  | (slug, profile) :: rest =>
    match process_profile profile modified_count with
    | None => None
    | Some (profile', n) =>
      match process_profiles rest n with
      | None => None
      | Some (rest', n') => Some ((slug, profile') :: rest', n')
      end
    end
  end.

(** The combined file after the loop and [modified_count]; the file is
    written back when the count is positive. *)
Definition process_all (all_data : dict json) : option (dict json * nat) :=
  process_profiles all_data 0.

End ProcessCombined.

(* ================================================================== *)
(** * members.json *)
(* ================================================================== *)

Module Members.

(** A member object of [members.json], with the keys the scripts read
    or write.  [None] is a missing key; for [aliases] also [null]. *)
Record member := {
  name : pystr;
  nameJa : option pystr;
  nameKo : option pystr;
  aliases : option (dict (list pystr))
}.

Definition key_ko : pystr := Eval vm_compute in u "ko".
Definition key_ja : pystr := Eval vm_compute in u "ja".

Definition set_nameJa (m : member) (v : pystr) : member :=
  {| name := name m; nameJa := Some v; nameKo := nameKo m; aliases := aliases m |}.

Definition set_nameKo (m : member) (v : pystr) : member :=
  {| name := name m; nameJa := nameJa m; nameKo := Some v; aliases := aliases m |}.

Definition set_aliases (m : member) (d : dict (list pystr)) : member :=
  {| name := name m; nameJa := nameJa m; nameKo := nameKo m; aliases := Some d |}.

(** ['nameKo' not in member or not member.get('nameKo')]. *)
Definition nameKo_missing (m : member) : bool :=
  match nameKo m with
  | None => true
  | Some [] => true
  | Some (_ :: _) => false
  end.

(** [member.get('aliases') and member['aliases'].get(lang)], as the
    list it yields when the conjunction is truthy. *)
Definition truthy_aliases (lang : pystr) (m : member) : option (list pystr) :=
  match aliases m with
  | None => None
  | Some d =>
    match dict_get lang d with
    | Some (a :: l) => Some (a :: l)
    | _ => None
    end
  end.

(** [member.get('nameJa', '')]. *)
Definition member_ja_of (m : member) : pystr :=
  match nameJa m with
  | Some j => j
  | None => []
  end.

(** The entries the scripts drop from the schedule name list. *)
Definition denylist : list pystr := Eval vm_compute in
  [ u "カルーセル"; u "ホロライブ"; u "ReGLOSS"; u "FLOW GLOW" ].

(** The test both scripts apply to a schedule name and a member:
    [ja_name in member_ja or member_ja in ja_name or
     any(ja_name in alias or alias in ja_name for alias in ja_aliases)]. *)
Definition matches (x y : pystr) : bool := py_in x y || py_in y x.

Definition matches_any (ja_name member_ja : pystr) (ja_aliases : list pystr) : bool :=
  py_in ja_name member_ja || py_in member_ja ja_name
  || existsb (fun alias => py_in ja_name alias || py_in alias ja_name) ja_aliases.

End Members.

Import Members.

(* ------------------------------------------------------------------ *)
(** ** sync_official_names.py *)

Module SyncOfficialNames.

Definition normalize_english_name (name : pystr) : pystr :=
  if str_eqb name (u "Robocosan") then u "Roboco-san" else name.

(** [official_map]: English name -> official Japanese name, built from
    the (english, japanese) pairs of [official_talents.json]. *)
Definition build_official_map (official_talents : list (pystr * pystr)) : dict pystr :=
  fold_left
    (fun official_map talent =>
       dict_set (normalize_english_name (fst talent)) (snd talent) official_map)
    official_talents [].

(** The members of the set [schedule_ja_names]: the [member_name]s
    outside the deny list. *)
Definition schedule_filter (schedule_names : list pystr) : list pystr :=
  filter (fun n => negb (list_in n denylist)) schedule_names.

(** A [set] is iterated in an order the language does not fix: [order]
    is an iteration order of [schedule_ja_names] when it lists each of
    its members once. *)
Definition iteration_order (schedule_names order : list pystr) : Prop :=
  NoDup order /\ forall x, In x order <-> In x (schedule_filter schedule_names).

Record counters := {
  updated_count : nat;
  nameJa_updated : nat;
  nameKo_added : nat;
  ja_alias_added : nat
}.

Definition zero : counters :=
  {| updated_count := 0; nameJa_updated := 0; nameKo_added := 0; ja_alias_added := 0 |}.

Definition opt_str_eqb (a : option pystr) (b : pystr) : bool :=
  match a with
  | Some x => str_eqb x b
  | None => false
  end.

(** Step 1 of the loop body: [nameJa] from [official_map]. *)
Definition sync_nameJa (official_map : dict pystr) (m : member) : member * bool :=
  match dict_get (name m) official_map with
  | Some official_ja =>
    if negb (opt_str_eqb (nameJa m) official_ja)
    then (set_nameJa m official_ja, true)
    else (m, false)
  | None => (m, false)
  end.

(** Step 2: [nameKo] when missing or empty. *)
Definition add_nameKo (m : member) : member * bool :=
  if nameKo_missing m then
    match truthy_aliases key_ko m with
    | Some (first :: _) => (set_nameKo m first, true)
    | _ => (set_nameKo m (name m), true)
    end
  else (m, false).

(** The alias step of one loop turn: [if schedule_name not in
    ja_aliases and schedule_name != member_ja:
    member['aliases']['ja'].append(schedule_name)]. *)
Definition merge (ja_aliases : list pystr) (schedule_name member_ja : pystr)
  : list pystr * bool :=
  if negb (list_in schedule_name ja_aliases) && negb (str_eqb schedule_name member_ja)
  then (ja_aliases ++ [schedule_name], true)
  else (ja_aliases, false).

(** Step 3, the loop over [schedule_ja_names].  [ja_aliases] is the
    list object of [member['aliases']['ja']]: the appended names are
    seen by the tests of the later turns. *)
Fixpoint add_schedule_names (member_ja : pystr) (schedule_ja_names : list pystr)
    (ja_aliases : list pystr) (added : nat) : list pystr * nat :=
  match schedule_ja_names with
  | [] => (ja_aliases, added)
  | schedule_name :: rest =>
    if matches_any schedule_name member_ja ja_aliases then
      let (ja_aliases', was_added) := merge ja_aliases schedule_name member_ja in
      add_schedule_names member_ja rest ja_aliases'
        (if was_added then S added else added)
    else add_schedule_names member_ja rest ja_aliases added
  end.

(** [member['aliases']] after the two defaulting assignments of step 3. *)
Definition ensure_ja (m : member) : dict (list pystr) :=
  let d := match aliases m with Some d => d | None => [] end in
  match dict_get key_ja d with
  | Some _ => d
  | None => dict_set key_ja [] d
  end.

Definition ja_aliases_of (d : dict (list pystr)) : list pystr :=
  match dict_get key_ja d with
  | Some l => l
  | None => []
  end.

(** The body of [for member in members_data['members']]. *)
Definition sync_member (official_map : dict pystr) (schedule_ja_names : list pystr)
    (c : counters) (m : member) : member * counters :=
  let (m1, ja_upd) := sync_nameJa official_map m in
  let (m2, ko_add) := add_nameKo m1 in
  let member_ja := member_ja_of m2 in
  let d := ensure_ja m2 in
  let (ja_aliases, added) :=
    add_schedule_names member_ja schedule_ja_names (ja_aliases_of d) 0 in
  let m3 := set_aliases m2 (dict_set key_ja ja_aliases d) in
  let updated := ja_upd || ko_add || negb (added =? 0) in
  (m3,
   {| updated_count := updated_count c + (if updated then 1 else 0);
      nameJa_updated := nameJa_updated c + (if ja_upd then 1 else 0);
      nameKo_added := nameKo_added c + (if ko_add then 1 else 0);
      ja_alias_added := ja_alias_added c + added |}).

Fixpoint sync_members (official_map : dict pystr) (schedule_ja_names : list pystr)
    (members : list member) (c : counters) : list member * counters :=
  match members with
  | [] => ([], c)
  | m :: rest =>
    let (m', c') := sync_member official_map schedule_ja_names c m in
    let (rest', c'') := sync_members official_map schedule_ja_names rest c' in
    (m' :: rest', c'')
  end.

(** [main] between loading and saving: the registry afterwards and the
    counters of the summary.  [order] is the order in which the set
    [schedule_ja_names] is iterated. *)
Definition main (official_talents : list (pystr * pystr)) (order : list pystr)
    (members : list member) : list member * counters :=
  sync_members (build_official_map official_talents) order members zero.

End SyncOfficialNames.

(* ------------------------------------------------------------------ *)
(** ** update_members.py *)

Module UpdateMembers.

(** The [mapping] of [romanize_to_korean]. *)
Definition mapping : dict pystr := Eval vm_compute in
  [ (u "Usada Pekora", u "우사다 페코라");
    (u "Sakura Miko", u "사쿠라 미코");
    (u "Shiranui Flare", u "시라누이 후레아");
    (u "Tokino Sora", u "토키노 소라");
    (u "Roboco-san", u "로보코상");
    (u "Akai Haato", u "아카이 하아토");
    (u "Aki Rosenthal", u "아키 로젠탈");
    (u "Shirakami Fubuki", u "시라카미 후부키");
    (u "Natsuiro Matsuri", u "나츠이로 마츠리");
    (u "Yozora Mel", u "요조라 멜");
    (u "Murasaki Shion", u "무라사키 시온");
    (u "Nakiri Ayame", u "나키리 아야메");
    (u "Oozora Subaru", u "오오조라 스바루");
    (u "Minato Aqua", u "미나토 아쿠아");
    (u "Hoshimachi Suisei", u "호시마치 스이세이");
    (u "Tsunomaki Watame", u "츠노마키 와타메");
    (u "Tokoyami Towa", u "토코야미 토와");
    (u "Himemori Luna", u "히메모리 루나");
    (u "Yukihana Lamy", u "유키하나 라미");
    (u "Momosuzu Nene", u "모모스즈 네네");
    (u "Shishiro Botan", u "시시로 보탄");
    (u "Omaru Polka", u "오마루 폴카");
    (u "La+ Darknesss", u "라플라스 다크니스");
    (u "Takane Lui", u "타카네 루이");
    (u "Hakui Koyori", u "하쿠이 코요리");
    (u "Kazama Iroha", u "카자마 이로하");
    (u "Inugami Korone", u "이누가미 코로네");
    (u "Nekomata Okayu", u "네코마타 오카유");
    (u "Ookami Mio", u "오오카미 미오");
    (u "Amane Kanata", u "아마네 카나타");
    (u "AZKi", u "아즈키") ].

(** [romanize_to_korean(name)]: [mapping.get(name, name)]. *)
Definition romanize_to_korean (name : pystr) : pystr :=
  match dict_get name mapping with
  | Some ko => ko
  | None => name
  end.

(** The keys of [official_ja_map], in insertion order: the
    [member_name]s outside the deny list, each once. *)
Definition build_official_ja_map (official_names : list pystr) : dict bool :=
  fold_left
    (fun official_ja_map ja_name =>
       if list_in ja_name denylist then official_ja_map
       else dict_set ja_name true official_ja_map)
    official_names [].

Definition keys {V : Type} (d : dict V) : list pystr := map fst d.

Record counters := {
  updated_count : nat;
  nameKo_added : nat;
  ja_alias_added : nat
}.

Definition zero : counters :=
  {| updated_count := 0; nameKo_added := 0; ja_alias_added := 0 |}.

(** "Add nameKo if missing". *)
Definition add_nameKo (m : member) : member * bool :=
  if nameKo_missing m then
    match truthy_aliases key_ko m with
    | Some (first :: _) => (set_nameKo m first, true)
    | _ => (set_nameKo m (romanize_to_korean (name m)), true)
    end
  else (m, false).

(** The alias step of one loop turn: [if ja_name not in ja_aliases:
    member['aliases']['ja'].append(ja_name)]. *)
Definition merge (ja_aliases : list pystr) (ja_name : pystr) : list pystr * bool :=
  if negb (list_in ja_name ja_aliases)
  then (ja_aliases ++ [ja_name], true)
  else (ja_aliases, false).

(** The loop over [official_ja_map.keys()]; [ja_aliases] is the list
    object being appended to. *)
Fixpoint add_official_names (member_ja : pystr) (ja_names : list pystr)
    (ja_aliases : list pystr) (added : nat) : list pystr * nat :=
  match ja_names with
  | [] => (ja_aliases, added)
  | ja_name :: rest =>
    if matches_any ja_name member_ja ja_aliases then
      let (ja_aliases', was_added) := merge ja_aliases ja_name in
      add_official_names member_ja rest ja_aliases'
        (if was_added then S added else added)
    else add_official_names member_ja rest ja_aliases added
  end.

(** The body of [for member in members_data['members']]. *)
Definition update_member (ja_names : list pystr) (c : counters) (m : member)
  : member * counters :=
  let (m1, ko_add) := add_nameKo m in
  let (m2, added) :=
    match truthy_aliases key_ja m1 with
    | Some ja_aliases =>
      let (l, n) := add_official_names (member_ja_of m1) ja_names ja_aliases 0 in
      (match aliases m1 with
       | Some d => set_aliases m1 (dict_set key_ja l d)
       | None => m1
       end, n)
    | None => (m1, 0)
    end in
  let updated := ko_add || negb (added =? 0) in
  (m2,
   {| updated_count := updated_count c + (if updated then 1 else 0);
      nameKo_added := nameKo_added c + (if ko_add then 1 else 0);
      ja_alias_added := ja_alias_added c + added |}).

Fixpoint update_members (ja_names : list pystr) (members : list member)
    (c : counters) : list member * counters :=
  match members with
  | [] => ([], c)
  | m :: rest =>
    let (m', c') := update_member ja_names c m in
    let (rest', c'') := update_members ja_names rest c' in
    (m' :: rest', c'')
  end.

(** [main] between loading and saving. *)
Definition main (official_names : list pystr) (members : list member)
  : list member * counters :=
  update_members (keys (build_official_ja_map official_names)) members zero.

End UpdateMembers.

(* ------------------------------------------------------------------ *)
(** ** fix_korean_names.py *)

Module FixKoreanNames.

Definition OFFICIAL_KOREAN_NAMES : dict pystr := Eval vm_compute in
  [ (u "Tokino Sora", u "토키노 소라");
    (u "Roboco-san", u "로보코상");
    (u "Sakura Miko", u "사쿠라 미코");
    (u "Hoshimachi Suisei", u "호시마치 스이세이");
    (u "AZKi", u "아즈키");
    (u "Yozora Mel", u "요조라 멜");
    (u "Akai Haato", u "아카이 하아토");
    (u "Aki Rosenthal", u "아키 로젠탈");
    (u "Natsuiro Matsuri", u "나츠이로 마츠리");
    (u "Shirakami Fubuki", u "시라카미 후부키");
    (u "Minato Aqua", u "미나토 아쿠아");
    (u "Murasaki Shion", u "무라사키 시온");
    (u "Nakiri Ayame", u "나키리 아야메");
    (u "Yuzuki Choco", u "유즈키 초코");
    (u "Oozora Subaru", u "오오조라 스바루");
    (u "Ookami Mio", u "오오카미 미오");
    (u "Nekomata Okayu", u "네코마타 오카유");
    (u "Inugami Korone", u "이누가미 코로네");
    (u "Usada Pekora", u "우사다 페코라");
    (u "Uruha Rushia", u "우루하 루시아");
    (u "Shiranui Flare", u "시라누이 후레아");
    (u "Shirogane Noel", u "시로가네 노엘");
    (u "Houshou Marine", u "호쇼 마린");
    (u "Amane Kanata", u "아마네 카나타");
    (u "Tsunomaki Watame", u "츠노마키 와타메");
    (u "Tokoyami Towa", u "토코야미 토와");
    (u "Himemori Luna", u "히메모리 루나");
    (u "Yukihana Lamy", u "유키하나 라미");
    (u "Momosuzu Nene", u "모모스즈 네네");
    (u "Shishiro Botan", u "시시로 보탄");
    (u "Omaru Polka", u "오마루 폴카");
    (u "La+ Darknesss", u "라플라스 다크니스");
    (u "Takane Lui", u "타카네 루이");
    (u "Hakui Koyori", u "하쿠이 코요리");
    (u "Kazama Iroha", u "카자마 이로하");
    (u "Sakamata Chloe", u "사카마타 클로에");
    (u "Hiodoshi Ao", u "히오도시 아오");
    (u "Otonose Kanade", u "오토노세 카나데");
    (u "Ichijou Ririka", u "이치죠 리리카");
    (u "Juufuutei Raden", u "주후테이 라덴");
    (u "Todoroki Hajime", u "토도로키 하지메");
    (u "Isaki Riona", u "이사키 리오나");
    (u "Koganei Niko", u "코가네이 니코");
    (u "Mizumiya Su", u "미즈미야 스우");
    (u "Rindo Chihaya", u "린도 치하야");
    (u "Kikirara Vivi", u "키키라라 비비");
    (u "Ayunda Risu", u "아윤다 리스");
    (u "Moona Hoshinova", u "무나 호시노바");
    (u "Airani Iofifteen", u "아이라니 이오피프틴");
    (u "Kureiji Ollie", u "쿠레이지 올리");
    (u "Anya Melfissa", u "아냐 멜피사");
    (u "Pavolia Reine", u "파볼리아 레이네");
    (u "Vestia Zeta", u "베스티아 제타");
    (u "Kaela Kovalskia", u "카엘라 코발스키아");
    (u "Kobo Kanaeru", u "코보 카나에루");
    (u "Mori Calliope", u "모리 칼리오페");
    (u "Takanashi Kiara", u "타카나시 키아라");
    (u "Ninomae Ina'nis", u "니노마에 이나니스");
    (u "Gawr Gura", u "가우르 구라");
    (u "Watson Amelia", u "왓슨 아멜리아");
    (u "Tsukumo Sana", u "츠쿠모 사나");
    (u "Ceres Fauna", u "세레스 파우나");
    (u "Ouro Kronii", u "오로 크로니");
    (u "Nanashi Mumei", u "나나시 무메이");
    (u "Hakos Baelz", u "하코스 벨즈");
    (u "Shiori Novella", u "시오리 노벨라");
    (u "Koseki Bijou", u "코세키 비쥬");
    (u "Nerissa Ravencroft", u "네리사 레이븐크로프트");
    (u "FuwaMoco", u "후와모코");
    (u "Elizabeth Rose Bloodflame", u "엘리자베스 로즈 블러드플레임");
    (u "Cecilia Immergreen", u "세실리아 이머그린");
    (u "Raora Panthera", u "라오라 판테라");
    (u "Gigi Murin", u "지지 무린") ].

(** The state of the loop of [main]: the counter [updated] and the
    list [missing]. *)
Record report := {
  updated : nat;
  missing : list pystr
}.

(** [member.get('nameKo', '')]. *)
Definition old_ko_of (m : member) : pystr :=
  match nameKo m with
  | Some k => k
  | None => []
  end.

(** The body of [for member in members_data['members']]. *)
Definition fix_member (r : report) (m : member) : member * report :=
  match dict_get (name m) OFFICIAL_KOREAN_NAMES with
  | Some new_ko =>
    if negb (str_eqb (old_ko_of m) new_ko)
    then (set_nameKo m new_ko, {| updated := S (updated r); missing := missing r |})
    else (m, r)
  | None =>
    let r' := {| updated := updated r; missing := missing r ++ [name m] |} in
    if nameKo_missing m then (set_nameKo m (name m), r') else (m, r')
  end.

Fixpoint fix_members (members : list member) (r : report) : list member * report :=
  match members with
  | [] => ([], r)
  | m :: rest =>
    let (m', r') := fix_member r m in
    let (rest', r'') := fix_members rest r' in
    (m' :: rest', r'')
  end.

Definition main (members : list member) : list member * report :=
  fix_members members {| updated := 0; missing := [] |}.

End FixKoreanNames.

(* ================================================================== *)
(** * Predicates used in the statements *)
(* ================================================================== *)

Module Normalizer := FixJapaneseLabels.
Module Legacy := FixJapaneseHashtagLabels.

Module Props.

(** [x] occurs in [y] as a contiguous run of characters. *)
Definition Substring (x y : pystr) : Prop :=
  exists pre post, y = pre ++ x ++ post.

(** No source token of the table [tbl] occurs in [s]. *)
Definition token_free (tbl : list (pystr * pystr)) (s : pystr) : Prop :=
  forall t, In t (map fst tbl) -> py_in t s = false.

Definition nonempty (s : pystr) : bool :=
  match s with
  | [] => false
  | _ :: _ => true
  end.

(** Two strings are comparable when one is a prefix of the other. *)
Definition comparable (a b : pystr) : bool := startswith b a || startswith a b.

(** No non-empty suffix of [t] is comparable with [r]: an occurrence of
    [t] cannot reach into a following copy of [r]. *)
Fixpoint suffix_clear (t r : pystr) : bool :=
  match t with
  | [] => true
  | _ :: t' => negb (comparable t r) && suffix_clear t' r
  end.

(** [t] is comparable with no non-empty suffix of [r]: no occurrence
    of [t] starts inside a copy of [r]. *)
Fixpoint prefix_clear (t r : pystr) : bool :=
  match r with
  | [] => true
  | _ :: r' => negb (comparable t r) && prefix_clear t r'
  end.

(** No occurrence of [t] can share a character with a copy of [r]. *)
Definition inert (t r : pystr) : bool := suffix_clear t r && prefix_clear t r.

(** Every token of the table is non-empty and inert for every
    replacement text of the table. *)
Definition table_inert (tbl : list (pystr * pystr)) : bool :=
  forallb (fun p => nonempty (fst p) && forallb (fun q => inert (fst p) (snd q)) tbl) tbl.

Definition no_space (t : pystr) : bool := forallb (fun c => negb (c =? space)%N) t.

(** Every token contains a non-empty token without the space character. *)
Definition table_spaced (tbl : list (pystr * pystr)) : bool :=
  forallb
    (fun p => existsb (fun q => nonempty (fst q) && no_space (fst q) && py_in (fst q) (fst p)) tbl)
    tbl.

(** No schedule name occurs inside a different schedule name. *)
Definition unrelated (names : list pystr) : Prop :=
  forall a b, In a names -> In b names -> py_in a b = true -> a = b.

(** The first Korean alias of the member, when there is one. *)
Definition first_ko (m : member) : option pystr :=
  match truthy_aliases key_ko m with
  | Some (first :: _) => Some first
  | _ => None
  end.

(** The strings a resolution of [nameKo] can take its value from are
    not empty: the member's [name] and its first Korean alias. *)
Definition ko_sources_nonempty (m : member) : Prop :=
  name m <> [] /\ first_ko m <> Some [].

(** The [ja] alias list of a member ([[]] when there is none). *)
Definition ja_list (m : member) : list pystr :=
  match aliases m with
  | Some d => match dict_get key_ja d with Some l => l | None => [] end
  | None => []
  end.

(** The executable form of [token_free]. *)
Definition no_token (tbl : list (pystr * pystr)) (s : pystr) : bool :=
  forallb (fun p => negb (py_in (fst p) s)) tbl.

(** The strings the top-level [fix_hashtag_labels] looks for. *)
Definition legacy_tokens : list pystr :=
  flat_map (fun p => [fst p ++ Legacy.fullwidth_colon; fst p ++ [colon]])
           Legacy.LABEL_REPLACEMENTS.

(** A profile with one entry whose label is outside the label set of
    [process_json_file]. *)
Definition fan_name_profile : dict json :=
  [ (ProcessJsonFile.key_data,
     JList [ JDict [ (ProcessJsonFile.key_label, JStr (u "팬네임"));
                     (ProcessJsonFile.key_value, JStr (u "ミーム:そらとも")) ] ]) ].

(** The table the top-level [fix_hashtag_labels] works through: each
    label once with a full-width and once with a half-width colon. *)
Definition legacy_table : list (pystr * pystr) :=
  flat_map (fun p => [ (fst p ++ Legacy.fullwidth_colon, snd p ++ [colon; space]);
                       (fst p ++ [colon], snd p ++ [colon; space]) ])
           Legacy.LABEL_REPLACEMENTS.

(** The number of half-width colons of a string. *)
Definition colons (s : pystr) : nat := count_occ N.eq_dec s colon.

(** The value is a float [NaN], the one value that differs from itself. *)
Definition is_nan_value (v : json) : bool :=
  match v with
  | JFloat f => negb (PrimFloat.eqb f f)
  | _ => false
  end.

(** The item is an object with a label of the label set of
    [process_json_file] and the value [NaN]. *)
Definition nan_item (item : json) : bool :=
  match item with
  | JDict d =>
    ProcessJsonFile.label_in (ProcessJsonFile.get_default ProcessJsonFile.key_label d)
                             ProcessJsonFile.hashtag_labels
    && is_nan_value (ProcessJsonFile.get_default ProcessJsonFile.key_value d)
  | _ => false
  end.

(** The file has such an item. *)
Definition has_nan (data : dict json) : bool :=
  match dict_get ProcessJsonFile.key_data data with
  | Some (JList items) => existsb nan_item items
  | _ => false
  end.

(** A profile whose only entry has a hashtag label and the value [NaN]. *)
Definition nan_profile : dict json :=
  [ (ProcessJsonFile.key_data,
     JList [ JDict [ (ProcessJsonFile.key_label, JStr (u "해시태그"));
                     (ProcessJsonFile.key_value, JFloat PrimFloat.nan) ] ]) ].

(** The keys of a dict, in order. *)
Definition dict_keys {V : Type} (d : dict V) : list pystr := map fst d.

(** The test of step 1 of [sync_official_names]: the member is listed
    in [official_map] under another [nameJa] than it has. *)
Definition nameJa_differs (official_map : dict pystr) (m : member) : bool :=
  match dict_get (name m) official_map with
  | Some official_ja => negb (SyncOfficialNames.opt_str_eqb (nameJa m) official_ja)
  | None => false
  end.

(** The member a loop turn of [sync_official_names] leaves. *)
Definition synced (official_map : dict pystr) (order : list pystr) (m : member) : member :=
  fst (SyncOfficialNames.sync_member official_map order SyncOfficialNames.zero m).

(** The number of [ja] aliases a loop turn of [sync_official_names] adds. *)
Definition aliases_gained (official_map : dict pystr) (order : list pystr) (m : member)
  : nat :=
  List.length (ja_list (synced official_map order m)) - List.length (ja_list m).

(** The value of a key of the [aliases] object ([None] without object). *)
Definition alias_get (k : pystr) (m : member) : option (list pystr) :=
  match aliases m with
  | Some d => dict_get k d
  | None => None
  end.

(** The test of [fix_korean_names]: the member is listed in
    [OFFICIAL_KOREAN_NAMES] under another [nameKo] than it has. *)
Definition nameKo_differs (m : member) : bool :=
  match dict_get (name m) FixKoreanNames.OFFICIAL_KOREAN_NAMES with
  | Some new_ko => negb (str_eqb (FixKoreanNames.old_ko_of m) new_ko)
  | None => false
  end.

(** The member is not listed in [OFFICIAL_KOREAN_NAMES]. *)
Definition unlisted (m : member) : bool :=
  match dict_get (name m) FixKoreanNames.OFFICIAL_KOREAN_NAMES with
  | Some _ => false
  | None => true
  end.

(** The member a loop turn of [fix_korean_names] leaves. *)
Definition ko_fixed (m : member) : member :=
  fst (FixKoreanNames.fix_member
         {| FixKoreanNames.updated := 0; FixKoreanNames.missing := [] |} m).

(** The member a loop turn of [update_members] leaves. *)
Definition updated_member (ja_names : list pystr) (m : member) : member :=
  fst (UpdateMembers.update_member ja_names UpdateMembers.zero m).

(** Equality of strings is decidable. *)
Definition str_eq_dec : forall x y : pystr, {x = y} + {x <> y} :=
  list_eq_dec N.eq_dec.

(** Sample members and schedule names for the concrete runs below. *)
Definition sora : member :=
  {| name := u "Tokino Sora"; nameJa := Some (u "ときのそら");
     nameKo := Some (u "토키노 소라"); aliases := Some [ (key_ja, []) ] |}.

Definition sora_with_alias : member :=
  {| name := u "Tokino Sora"; nameJa := Some (u "ときのそら");
     nameKo := Some (u "토키노 소라"); aliases := Some [ (key_ja, [u "そら"]) ] |}.

Definition sora_without_nameJa : member :=
  {| name := u "Tokino Sora"; nameJa := None;
     nameKo := Some (u "토키노 소라"); aliases := None |}.

Definition sora_empty_ko_alias : member :=
  {| name := u "Tokino Sora"; nameJa := Some (u "ときのそら");
     nameKo := None; aliases := Some [ (key_ko, [ [] ]); (key_ja, []) ] |}.

Definition azki_fresh : member :=
  {| name := u "AZKi"; nameJa := None; nameKo := None; aliases := None |}.

Definition sora_talents : list (pystr * pystr) :=
  [ (u "Tokino Sora", u "ときのそら") ].

Definition fuwawa : member :=
  {| name := u "Fuwawa Abyssgard"; nameJa := Some (u "フワワ・アビスガード");
     nameKo := Some (u "후와와"); aliases := Some [ (key_ja, []) ] |}.

Definition mococo : member :=
  {| name := u "Mococo Abyssgard"; nameJa := Some (u "モココ・アビスガード");
     nameKo := Some (u "모코코"); aliases := Some [ (key_ja, []) ] |}.

End Props.

Import Props.

(* ================================================================== *)
(** * Strings: equality, prefixes, containment *)
(* ================================================================== *)

Section StringFacts.

Lemma str_eqb_eq (x y : pystr) : str_eqb x y = true <-> x = y.
Proof.
  revert y; induction x as [|a x IH]; intros [|b y]; simpl; split;
    try congruence; try reflexivity.
  - rewrite andb_true_iff, N.eqb_eq, IH. intros [-> ->]; reflexivity.
  - intros H; injection H as -> ->.
    rewrite N.eqb_refl. simpl. apply IH. reflexivity.
Qed.

Lemma str_eqb_refl (x : pystr) : str_eqb x x = true.
Proof. apply str_eqb_eq; reflexivity. Qed.

Lemma str_eqb_neq (x y : pystr) : str_eqb x y = false <-> x <> y.
Proof.
  split.
  - intros H E. apply str_eqb_eq in E. congruence.
  - intros H. destruct (str_eqb x y) eqn:E; [|reflexivity].
    apply str_eqb_eq in E. contradiction.
Qed.

Lemma list_in_In (x : pystr) (l : list pystr) : list_in x l = true <-> In x l.
Proof.
  unfold list_in. rewrite existsb_exists. split.
  - intros (y & Hy & E). apply str_eqb_eq in E. subst. assumption.
  - intros H. exists x. split; [assumption | apply str_eqb_refl].
Qed.

Lemma list_in_not_In (x : pystr) (l : list pystr) : list_in x l = false <-> ~ In x l.
Proof.
  rewrite <- list_in_In. destruct (list_in x l); split; congruence.
Qed.

Lemma startswith_nil (s : pystr) : startswith s [] = true.
Proof. destruct s; reflexivity. Qed.

Lemma startswith_iff (s p : pystr) :
  startswith s p = true <-> exists r, s = p ++ r.
Proof.
  revert s; induction p as [|a p IH]; intros s; simpl.
  - split; [intros _; exists s; reflexivity | reflexivity].
  - destruct s as [|b s].
    + split; [discriminate | intros [r Hr]; discriminate].
    + rewrite andb_true_iff, N.eqb_eq, IH. split.
      * intros [-> [r ->]]. exists r. reflexivity.
      * intros [r Hr]. injection Hr as -> ->. split; [reflexivity | exists r; reflexivity].
Qed.

Lemma startswith_app (p r : pystr) : startswith (p ++ r) p = true.
Proof. apply startswith_iff. exists r. reflexivity. Qed.

Lemma startswith_refl (p : pystr) : startswith p p = true.
Proof. apply startswith_iff. exists []. rewrite app_nil_r. reflexivity. Qed.

(** A prefix of [r ++ x] is a prefix of [r], or [r] is a prefix of it. *)
Lemma startswith_app_comparable (r x t : pystr) :
  startswith (r ++ x) t = true -> comparable t r = true.
Proof.
  unfold comparable. revert t; induction r as [|a r IH]; intros t H.
  - rewrite (startswith_nil t). apply orb_true_r.
  - destruct t as [|b t]; [reflexivity|].
    simpl in *. apply andb_true_iff in H as [E H]. rewrite E. simpl.
    rewrite N.eqb_sym, E. simpl. apply IH. assumption.
Qed.

Lemma py_in_iff (x y : pystr) : py_in x y = true <-> Substring x y.
Proof.
  unfold Substring. induction y as [|c y IH]; simpl.
  - rewrite orb_false_r, startswith_iff. split.
    + intros [r Hr]. exists [], r. assumption.
    + intros (pre & post & H). destruct pre; [|discriminate].
      exists post. assumption.
  - rewrite orb_true_iff, startswith_iff, IH. split.
    + intros [[r Hr] | (pre & post & H)].
      * exists [], r. assumption.
      * exists (c :: pre), post. simpl. rewrite H. reflexivity.
    + intros (pre & post & H). destruct pre as [|d pre].
      * left. exists post. assumption.
      * right. injection H as -> H. exists pre, post. assumption.
Qed.

Lemma py_in_nil (y : pystr) : py_in [] y = true.
Proof. destruct y; simpl; reflexivity. Qed.

Lemma py_in_refl (x : pystr) : py_in x x = true.
Proof. apply py_in_iff. exists [], []. rewrite app_nil_r. reflexivity. Qed.

Lemma py_in_trans (a b c : pystr) :
  py_in a b = true -> py_in b c = true -> py_in a c = true.
Proof.
  rewrite !py_in_iff. intros (p1 & q1 & ->) (p2 & q2 & ->).
  exists (p2 ++ p1), (q1 ++ q2). rewrite <- !app_assoc. reflexivity.
Qed.

Lemma py_in_cons (x : pystr) (c : N) (y : pystr) :
  py_in x y = true -> py_in x (c :: y) = true.
Proof. intros H. simpl. rewrite H. apply orb_true_r. Qed.

Lemma py_in_starts (x y : pystr) : startswith y x = true -> py_in x y = true.
Proof. intros H. destruct y; simpl; rewrite H; reflexivity. Qed.

Lemma py_in_skipn (x : pystr) (k : nat) (y : pystr) :
  py_in x (skipn k y) = true -> py_in x y = true.
Proof.
  revert y; induction k as [|k IH]; intros y H; [assumption|].
  destruct y as [|c y]; [assumption|]. apply py_in_cons, IH. assumption.
Qed.

Lemma py_in_false_cons (x : pystr) (c : N) (y : pystr) :
  py_in x (c :: y) = false -> startswith (c :: y) x = false /\ py_in x y = false.
Proof. simpl. intros H. apply orb_false_iff in H. assumption. Qed.

End StringFacts.

(* ================================================================== *)
(** * [str.replace] *)
(* ================================================================== *)

Section ReplaceFacts.

Variables old new : pystr.

Lemma replace_from_skip (k : nat) (s : pystr) :
  replace_from old new k s = replace_from old new 0 (skipn k s).
Proof.
  revert k; induction s as [|c s IH]; intros [|k]; simpl; try reflexivity.
  apply IH.
Qed.

(** Where [old] does not occur nothing is replaced. *)
Lemma replace_from_absent (s : pystr) :
  py_in old s = false -> replace_from old new 0 s = s.
Proof.
  induction s as [|c s IH]; intros H; [reflexivity|].
  apply py_in_false_cons in H as [H1 H2].
  simpl replace_from. rewrite H1, (IH H2). reflexivity.
Qed.

Lemma replace_absent (s : pystr) :
  py_in old s = false -> replace s old new = s.
Proof.
  intros H. unfold replace. destruct old as [|a o] eqn:E.
  - rewrite py_in_nil in H. discriminate.
  - rewrite <- E in *. apply replace_from_absent. assumption.
Qed.

Hypothesis old_nonempty : old <> [].

(** A prefix of the output that cannot reach into a copy of [new] is
    a prefix of the input. *)
Lemma startswith_replace_from (t s : pystr) :
  suffix_clear t new = true ->
  startswith (replace_from old new 0 s) t = true ->
  startswith s t = true.
Proof.
  revert s; induction t as [|a t IH]; intros s Hc H; [reflexivity|].
  simpl in Hc. apply andb_true_iff in Hc as [Hc1 Hc2].
  apply negb_true_iff in Hc1.
  destruct s as [|c s]; [discriminate H|].
  simpl replace_from in H.
  destruct (startswith (c :: s) old).
  - apply startswith_app_comparable in H. congruence.
  - simpl in H |- *. apply andb_true_iff in H as [E H]. rewrite E. simpl.
    apply IH; assumption.
Qed.

(** An occurrence in [new ++ x] that cannot touch [new] lies in [x]. *)
Lemma py_in_app_clear (t r x : pystr) :
  prefix_clear t r = true -> py_in t (r ++ x) = true -> py_in t x = true.
Proof.
  induction r as [|c r IH]; intros Hc H; [assumption|].
  simpl in Hc. apply andb_true_iff in Hc as [Hc1 Hc2].
  apply negb_true_iff in Hc1.
  simpl in H. apply orb_true_iff in H as [H | H].
  - apply (startswith_app_comparable (c :: r) x t) in H. congruence.
  - apply IH; assumption.
Qed.

(** Replacing creates no occurrence of an inert token. *)
Lemma py_in_replace_from (t : pystr) (k : nat) (s : pystr) :
  inert t new = true ->
  py_in t (replace_from old new k s) = true -> py_in t s = true.
Proof.
  intros Hi. apply andb_true_iff in Hi as [Hs Hp].
  revert k; induction s as [|c s IH]; intros k H; [assumption|].
  destruct k as [|k].
  - simpl replace_from in H. destruct (startswith (c :: s) old) eqn:E.
    + apply py_in_cons, (IH (List.length old - 1)).
      apply py_in_app_clear with (r := new); assumption.
    + simpl py_in in H. apply orb_true_iff in H as [H | H].
      * apply py_in_starts.
        apply startswith_replace_from; [assumption|].
        simpl replace_from. rewrite E. assumption.
      * apply py_in_cons, (IH 0). assumption.
  - simpl replace_from in H. apply py_in_cons, (IH k). assumption.
Qed.

(** After the replacement no occurrence of [old] is left, when [old]
    is inert for [new]. *)
Lemma py_in_replace_from_old (k : nat) (s : pystr) :
  inert old new = true -> py_in old (replace_from old new k s) = false.
Proof.
  intros Hi. pose proof Hi as Hi'. apply andb_true_iff in Hi' as [Hs Hp].
  revert k; induction s as [|c s IH]; intros k.
  - simpl. destruct old; [congruence | reflexivity].
  - destruct k as [|k]; simpl replace_from; [|apply IH].
    destruct (startswith (c :: s) old) eqn:E.
    + destruct (py_in old (new ++ replace_from old new (List.length old - 1) s)) eqn:F;
        [|reflexivity].
      apply py_in_app_clear in F; [|assumption]. rewrite IH in F. discriminate.
    + simpl py_in. rewrite IH, orb_false_r.
      destruct (startswith (c :: replace_from old new 0 s) old) eqn:F; [|reflexivity].
      assert (G : startswith (c :: s) old = true).
      { apply startswith_replace_from; [assumption|].
        simpl replace_from. rewrite E. assumption. }
      congruence.
Qed.

End ReplaceFacts.

Lemma replace_nonempty (s old new : pystr) :
  old <> [] -> replace s old new = replace_from old new 0 s.
Proof. destruct old; [congruence | reflexivity]. Qed.

Lemma nonempty_neq (t : pystr) : nonempty t = true <-> t <> [].
Proof. destruct t; simpl; split; congruence. Qed.

(* ------------------------------------------------------------------ *)
(** ** A table of replacements applied in order *)

Section ReplaceAll.

Import FixJapaneseLabels.

Lemma replace_all_token_free (tbl : list (pystr * pystr)) (s : pystr) :
  token_free tbl s -> replace_all tbl s = s.
Proof.
  unfold replace_all, token_free. induction tbl as [|[t r] tbl IH]; intros H.
  - reflexivity.
  - simpl. rewrite replace_absent.
    + apply IH. intros t' Ht'. apply H. right. assumption.
    + apply H. left. reflexivity.
Qed.

(** The invariant of the loop: the tokens already handled ([seen]) do
    not occur in the running result, and no later replacement brings
    one of them back. *)
Lemma replace_all_invariant (todo : list (pystr * pystr)) :
  forall (seen : list pystr) (s : pystr),
    (forall t, In t seen -> py_in t s = false) ->
    (forall t q, In t (seen ++ map fst todo) -> In q todo ->
                 t <> [] /\ inert t (snd q) = true) ->
    forall t, In t (seen ++ map fst todo) -> py_in t (replace_all todo s) = false.
Proof.
  induction todo as [|[t0 r0] todo IH]; intros seen s Hseen Hin t Ht.
  - simpl in *. rewrite app_nil_r in Ht. apply Hseen. assumption.
  - unfold replace_all. simpl fold_left.
    change (py_in t (replace_all todo (replace s t0 r0)) = false).
    assert (H0 : t0 <> [] /\ inert t0 r0 = true).
    { apply (Hin t0 (t0, r0)).
      - apply in_or_app. right. left. reflexivity.
      - left. reflexivity. }
    destruct H0 as [Hne Hi0].
    apply (IH (seen ++ [t0])).
    + intros t' Ht'. rewrite replace_nonempty by assumption.
      apply in_app_or in Ht' as [Ht' | [<- | []]].
      * destruct (py_in t' (replace_from t0 r0 0 s)) eqn:E; [|reflexivity].
        assert (Hi : inert t' r0 = true).
        { apply (Hin t' (t0, r0)).
          - apply in_or_app. left. assumption.
          - left. reflexivity. }
        apply py_in_replace_from in E; [|exact Hi].
        rewrite (Hseen t' Ht') in E. discriminate.
      * apply py_in_replace_from_old; assumption.
    + intros t' q Ht' Hq. apply Hin.
      * rewrite <- app_assoc in Ht'. assumption.
      * right. assumption.
    + rewrite <- app_assoc. assumption.
Qed.

Lemma table_inert_spec (tbl : list (pystr * pystr)) :
  table_inert tbl = true ->
  forall t q, In t (map fst tbl) -> In q tbl -> t <> [] /\ inert t (snd q) = true.
Proof.
  unfold table_inert. rewrite forallb_forall. intros H t q Ht Hq.
  apply in_map_iff in Ht as (p & <- & Hp).
  specialize (H p Hp). apply andb_true_iff in H as [H1 H2].
  split; [apply nonempty_neq; assumption|].
  rewrite forallb_forall in H2. apply H2. assumption.
Qed.

(** After the loop over an inert table no token of the table occurs
    in the result. *)
Lemma replace_all_clears (tbl : list (pystr * pystr)) (s : pystr) :
  table_inert tbl = true -> token_free tbl (replace_all tbl s).
Proof.
  intros H t Ht.
  apply (replace_all_invariant tbl [] s).
  - intros ? [].
  - intros t' q Ht' Hq. apply table_inert_spec with (tbl := tbl); assumption.
  - assumption.
Qed.

End ReplaceAll.

(* ================================================================== *)
(** * The colon collapse [re.sub(r':\s*:\s*', ': ', s)] *)
(* ================================================================== *)

Section SubColonsFacts.

Lemma sub_colons_from_skip (k : nat) (s : pystr) :
  sub_colons_from k s = sub_colons_from 0 (skipn k s).
Proof.
  revert k; induction s as [|c s IH]; intros [|k]; simpl; try reflexivity.
  apply IH.
Qed.

(** Without a match the substitution returns its argument. *)
Lemma sub_colons_no_run (s : pystr) :
  has_colon_run s = false -> sub_colons s = s.
Proof.
  unfold sub_colons. induction s as [|c s IH]; intros H; [reflexivity|].
  simpl in H. apply orb_false_iff in H as [H1 H2].
  simpl. rewrite (IH H2).
  destruct (c =? colon)%N; [|reflexivity].
  destruct (colon_tail s); [discriminate | reflexivity].
Qed.

Lemma no_space_starts (t x : pystr) :
  no_space t = true -> startswith (space :: x) t = true -> t = [].
Proof.
  destruct t as [|b t]; [reflexivity|]. simpl.
  intros H1 H2. apply andb_true_iff in H1 as [H1 _].
  apply andb_true_iff in H2 as [H2 _].
  rewrite H2 in H1. discriminate.
Qed.

(** A prefix of the output without a space is a prefix of the input:
    a match starts with the colon its replacement starts with. *)
Lemma startswith_sub_colons (t s : pystr) :
  no_space t = true ->
  startswith (sub_colons_from 0 s) t = true -> startswith s t = true.
Proof.
  revert s; induction t as [|a t IH]; intros s Hn H; [reflexivity|].
  pose proof Hn as Hn'. simpl in Hn'. apply andb_true_iff in Hn' as [Ha Ht].
  destruct s as [|c s]; [discriminate H|].
  simpl sub_colons_from in H.
  destruct (c =? colon)%N eqn:Ec.
  - destruct (colon_tail s) as [n|].
    + simpl in H. apply andb_true_iff in H as [E H].
      apply no_space_starts in H; [|assumption]. subst t.
      apply N.eqb_eq in Ec. subst c. simpl. rewrite E. reflexivity.
    + simpl in H |- *. apply andb_true_iff in H as [E H]. rewrite E. simpl.
      apply IH; assumption.
  - simpl in H |- *. apply andb_true_iff in H as [E H]. rewrite E. simpl.
    apply IH; assumption.
Qed.

(** The substitution creates no occurrence of a string without space. *)
Lemma py_in_sub_colons (t : pystr) (k : nat) (s : pystr) :
  no_space t = true -> t <> [] ->
  py_in t (sub_colons_from k s) = true -> py_in t s = true.
Proof.
  intros Hn Hne. revert k; induction s as [|c s IH]; intros k H; [assumption|].
  destruct k as [|k]; [|simpl in H; apply py_in_cons, (IH k); assumption].
  assert (Hhead : startswith (sub_colons_from 0 (c :: s)) t = true ->
                  py_in t (c :: s) = true).
  { intros G. apply py_in_starts, startswith_sub_colons; assumption. }
  simpl sub_colons_from in H, Hhead.
  destruct (c =? colon)%N.
  - destruct (colon_tail s) as [n|].
    + change (py_in t (colon :: space :: sub_colons_from n s))
        with (startswith (colon :: space :: sub_colons_from n s) t
              || (startswith (space :: sub_colons_from n s) t
                  || py_in t (sub_colons_from n s))) in H.
      apply orb_true_iff in H as [H | H]; [apply Hhead; assumption|].
      apply orb_true_iff in H as [H | H].
      * apply no_space_starts in H; [congruence | assumption].
      * apply py_in_cons, (IH n). assumption.
    + simpl py_in in H. apply orb_true_iff in H as [H | H].
      * apply Hhead. assumption.
      * apply py_in_cons, (IH 0). assumption.
  - simpl py_in in H. apply orb_true_iff in H as [H | H].
    + apply Hhead. assumption.
    + apply py_in_cons, (IH 0). assumption.
Qed.

Import FixJapaneseLabels.

(** The substitution brings back no token of a table in which every
    token contains a token without space. *)
Lemma sub_colons_token_free (tbl : list (pystr * pystr)) (s : pystr) :
  table_spaced tbl = true -> token_free tbl s -> token_free tbl (sub_colons s).
Proof.
  unfold table_spaced. rewrite forallb_forall. intros Hsp Hfree t Ht.
  apply in_map_iff in Ht as (p & <- & Hp).
  specialize (Hsp p Hp). apply existsb_exists in Hsp as (q & Hq & Hc).
  apply andb_true_iff in Hc as [Hc Hin]. apply andb_true_iff in Hc as [Hne Hns].
  destruct (py_in (fst p) (sub_colons s)) eqn:E; [|reflexivity].
  assert (F : py_in (fst q) (sub_colons s) = true).
  { apply py_in_trans with (b := fst p); assumption. }
  apply py_in_sub_colons in F; [|assumption | apply nonempty_neq; assumption].
  rewrite (Hfree (fst q)) in F; [discriminate|].
  apply in_map. assumption.
Qed.

End SubColonsFacts.

(* ================================================================== *)
(** * Label normalization: [fix_hashtag_labels] *)
(* ================================================================== *)

Lemma no_token_spec (tbl : list (pystr * pystr)) (s : pystr) :
  no_token tbl s = true <-> token_free tbl s.
Proof.
  unfold no_token, token_free. rewrite forallb_forall. split.
  - intros H t Ht. apply in_map_iff in Ht as (p & <- & Hp).
    apply negb_true_iff, H. assumption.
  - intros H p Hp. apply negb_true_iff, H, in_map. assumption.
Qed.

Lemma replacements_inert : table_inert Normalizer.replacements = true.
Proof. vm_compute. reflexivity. Qed.

Lemma replacements_spaced : table_spaced Normalizer.replacements = true.
Proof. vm_compute. reflexivity. Qed.

(** One normalization leaves no source token of the table behind. *)
Lemma fix_hashtag_labels_token_free (s : pystr) :
  token_free Normalizer.replacements (Normalizer.fix_hashtag_labels s).
Proof.
  unfold Normalizer.fix_hashtag_labels.
  apply sub_colons_token_free; [apply replacements_spaced|].
  apply replace_all_clears, replacements_inert.
Qed.

(** Scenario 1 and Scenario 2 of the design, on the [scripts/] version. *)
Example scenario_1 :
  Normalizer.fix_hashtag_labels (u "配信タグ：朝活") = u "방송 태그: 朝活".
Proof. vm_compute. reflexivity. Qed.

Example scenario_2 :
  Normalizer.fix_hashtag_labels (u "ファンアートタグ:絵") = u "팬아트 태그: 絵".
Proof. vm_compute. reflexivity. Qed.

(** The example of the source comment: a doubled colon is collapsed. *)
Example doubled_colon :
  sub_colons (u "방송 태그:  : ") = u "방송 태그: ".
Proof. vm_compute. reflexivity. Qed.

(** C2, as stated, fails: on three colons in a row the first
    normalization collapses the first two and leaves [": :"], which the
    second normalization collapses again. *)
Lemma fix_hashtag_labels_not_idempotent :
  Normalizer.fix_hashtag_labels (u ":::") = u ": :" /\
  Normalizer.fix_hashtag_labels (Normalizer.fix_hashtag_labels (u ":::")) = u ": " /\
  Normalizer.fix_hashtag_labels (Normalizer.fix_hashtag_labels (u ":::"))
    <> Normalizer.fix_hashtag_labels (u ":::").
Proof. vm_compute. repeat split. discriminate. Qed.

(** C2, amended: after one normalization no source token of the table
    is left, so normalizing again replaces nothing and only runs the
    colon collapse once more; the second normalization changes nothing
    whenever the once-normalized string has no colon, optional white
    space, colon run left. *)
Theorem fix_hashtag_labels_twice (s : pystr) :
  no_token Normalizer.replacements (Normalizer.fix_hashtag_labels s) = true /\
  Normalizer.fix_hashtag_labels (Normalizer.fix_hashtag_labels s)
    = sub_colons (Normalizer.fix_hashtag_labels s) /\
  (has_colon_run (Normalizer.fix_hashtag_labels s) = false ->
   Normalizer.fix_hashtag_labels (Normalizer.fix_hashtag_labels s)
     = Normalizer.fix_hashtag_labels s).
Proof.
  pose proof (fix_hashtag_labels_token_free s) as Hfree.
  assert (E : Normalizer.fix_hashtag_labels (Normalizer.fix_hashtag_labels s)
              = sub_colons (Normalizer.fix_hashtag_labels s)).
  { unfold Normalizer.fix_hashtag_labels at 1.
    rewrite replace_all_token_free by assumption. reflexivity. }
  repeat split.
  - apply no_token_spec. assumption.
  - assumption.
  - intros H. rewrite E. apply sub_colons_no_run. assumption.
Qed.

Lemma fix_hashtag_labels_twice_witness :
  has_colon_run (Normalizer.fix_hashtag_labels (u "ファンアートタグ:絵")) = false /\
  Normalizer.fix_hashtag_labels (Normalizer.fix_hashtag_labels (u "ファンアートタグ:絵"))
    = Normalizer.fix_hashtag_labels (u "ファンアートタグ:絵").
Proof.
  split.
  - vm_compute. reflexivity.
  - apply (proj2 (proj2 (fix_hashtag_labels_twice (u "ファンアートタグ:絵")))).
    vm_compute. reflexivity.
Defined.

(** A string without token and without colon run is returned as it is. *)
Lemma fix_hashtag_labels_plain (s : pystr) :
  no_token Normalizer.replacements s = true ->
  has_colon_run s = false ->
  Normalizer.fix_hashtag_labels s = s.
Proof.
  intros Hfree Hrun. apply no_token_spec in Hfree.
  unfold Normalizer.fix_hashtag_labels.
  rewrite replace_all_token_free by assumption.
  apply sub_colons_no_run. assumption.
Qed.

(** C8, as stated, fails: no source token occurs in ["::"], yet the
    colon collapse rewrites it. *)
Lemma fix_hashtag_labels_changes_token_free :
  no_token Normalizer.replacements (u "::") = true /\
  Normalizer.fix_hashtag_labels (u "::") = u ": " /\
  Normalizer.fix_hashtag_labels (u "::") <> u "::".
Proof. vm_compute. repeat split. discriminate. Qed.

(** C8, amended: when no source token of the table occurs in the
    input and the input has no colon, optional white space, colon run,
    the normalization returns the input unchanged. *)
Theorem fix_hashtag_labels_unchanged (s : pystr) :
  no_token Normalizer.replacements s = true ->
  has_colon_run s = false ->
  Normalizer.fix_hashtag_labels s = s.
Proof. apply fix_hashtag_labels_plain. Qed.

Lemma fix_hashtag_labels_unchanged_witness :
  Normalizer.fix_hashtag_labels (u "#そらArt") = u "#そらArt".
Proof.
  apply fix_hashtag_labels_unchanged; vm_compute; reflexivity.
Defined.

(** Without a token only the colon collapse acts. *)
Lemma fix_hashtag_labels_only_collapse (s : pystr) :
  no_token Normalizer.replacements s = true ->
  Normalizer.fix_hashtag_labels s = sub_colons s.
Proof.
  intros Hfree. apply no_token_spec in Hfree.
  unfold Normalizer.fix_hashtag_labels.
  rewrite replace_all_token_free by assumption. reflexivity.
Qed.

(* ------------------------------------------------------------------ *)
(** ** The two versions of [fix_hashtag_labels] *)

Lemma legacy_tokens_in_replacements :
  forallb (fun t => list_in t (map fst Normalizer.replacements)) legacy_tokens = true.
Proof. vm_compute. reflexivity. Qed.

Lemma legacy_fix_absent (s : pystr) :
  (forall t, In t legacy_tokens -> py_in t s = false) ->
  Legacy.fix_hashtag_labels s = s.
Proof.
  unfold Legacy.fix_hashtag_labels, legacy_tokens.
  induction Legacy.LABEL_REPLACEMENTS as [|[jp ko] tbl IH]; intros H; [reflexivity|].
  assert (H1 : py_in (jp ++ Legacy.fullwidth_colon) s = false).
  { apply H. simpl. left. reflexivity. }
  assert (H2 : py_in (jp ++ [colon]) s = false).
  { apply H. simpl. right. left. reflexivity. }
  simpl fold_left.
  rewrite (replace_absent _ _ _ H1), (replace_absent _ _ _ H2).
  apply IH. intros t Ht. apply H. simpl. right. right. assumption.
Qed.

(** C10, as stated, fails: on the input of Scenario 2 the top-level
    version finds no label followed by a colon and returns the input,
    while the [scripts/] version rewrites the compound label; the two
    also render the label of song impressions differently. *)
Lemma fix_hashtag_labels_versions_differ :
  Legacy.fix_hashtag_labels (u "ファンアートタグ:絵") = u "ファンアートタグ:絵" /\
  Normalizer.fix_hashtag_labels (u "ファンアートタグ:絵") = u "팬아트 태그: 絵" /\
  Legacy.fix_hashtag_labels (u "歌の感想:") = u "노래 감상: " /\
  Normalizer.fix_hashtag_labels (u "歌の感想:") = u "악곡 감상: " /\
  Legacy.fix_hashtag_labels (u "ファンアートタグ:絵")
    <> Normalizer.fix_hashtag_labels (u "ファンアートタグ:絵").
Proof. vm_compute. repeat split. discriminate. Qed.

(** C10, amended: the two versions agree on every string in which no
    source token of the [scripts/] table occurs and which has no colon,
    optional white space, colon run: both return it unchanged. *)
Theorem fix_hashtag_labels_versions_agree (s : pystr) :
  no_token Normalizer.replacements s = true ->
  has_colon_run s = false ->
  Legacy.fix_hashtag_labels s = Normalizer.fix_hashtag_labels s /\
  Normalizer.fix_hashtag_labels s = s.
Proof.
  intros Hfree Hrun.
  rewrite (fix_hashtag_labels_plain s Hfree Hrun).
  split; [|reflexivity].
  apply legacy_fix_absent. intros t Ht.
  apply no_token_spec in Hfree. apply Hfree.
  pose proof legacy_tokens_in_replacements as H.
  rewrite forallb_forall in H. apply list_in_In, H. assumption.
Qed.

Lemma fix_hashtag_labels_versions_agree_witness :
  Legacy.fix_hashtag_labels (u "#絵かゆ") = Normalizer.fix_hashtag_labels (u "#絵かゆ") /\
  Normalizer.fix_hashtag_labels (u "#絵かゆ") = u "#絵かゆ".
Proof.
  apply fix_hashtag_labels_versions_agree; vm_compute; reflexivity.
Defined.

(** Both versions satisfy Scenario 1. *)
Example scenario_1_legacy :
  Legacy.fix_hashtag_labels (u "配信タグ：朝活") = u "방송 태그: 朝活".
Proof. vm_compute. reflexivity. Qed.

(* ================================================================== *)
(** * Hashtag profile records *)
(* ================================================================== *)

Section DictFacts.

Context {V : Type}.

Lemma dict_get_set_same (k : pystr) (v : V) (d : dict V) :
  dict_get k (dict_set k v d) = Some v.
Proof.
  induction d as [|[k' v'] d IH]; simpl.
  - rewrite str_eqb_refl. reflexivity.
  - destruct (str_eqb k' k) eqn:E; simpl; rewrite E; [reflexivity | apply IH].
Qed.

Lemma dict_get_set_other (k k' : pystr) (v : V) (d : dict V) :
  k <> k' -> dict_get k (dict_set k' v d) = dict_get k d.
Proof.
  intros Hne. induction d as [|[k0 v0] d IH]; simpl.
  - destruct (str_eqb k' k) eqn:E; [|reflexivity].
    apply str_eqb_eq in E. congruence.
  - destruct (str_eqb k0 k') eqn:E; simpl.
    + destruct (str_eqb k0 k) eqn:F; [|reflexivity].
      apply str_eqb_eq in E, F. congruence.
    + rewrite IH. reflexivity.
Qed.

(** Writing back the value a key already has changes nothing. *)
Lemma dict_set_get (k : pystr) (v : V) (d : dict V) :
  dict_get k d = Some v -> dict_set k v d = d.
Proof.
  induction d as [|[k0 v0] d IH]; simpl; [discriminate|].
  destruct (str_eqb k0 k); intros H.
  - injection H as ->. reflexivity.
  - rewrite (IH H). reflexivity.
Qed.

End DictFacts.

Section ProfileFacts.

Import ProcessJsonFile.

Lemma process_items_map (items : list json) (modified : bool) :
  fst (process_items items modified) = map (fun item => fst (process_item item)) items.
Proof.
  revert modified; induction items as [|item items IH]; intros modified; [reflexivity|].
  simpl. destruct (process_item item) as [item' m] eqn:E.
  specialize (IH (modified || m)).
  destruct (process_items items (modified || m)) as [rest' modified'].
  simpl in *. rewrite IH. reflexivity.
Qed.

Lemma differs_fix_value (value : json) :
  differs (fix_value value) value = false -> fix_value value = value.
Proof.
  destruct value; try reflexivity.
  cbn [fix_value differs]. intros H.
  apply negb_false_iff, str_eqb_eq in H. rewrite H. reflexivity.
Qed.

Lemma key_label_value : key_label <> key_value.
Proof. vm_compute. discriminate. Qed.

(** What one loop turn of [process_json_file] does to an object: the
    label stays; outside the label set the object stays as it is;
    inside it the value is the normalized one. *)
Lemma process_item_dict (d : dict json) :
  exists d',
    fst (process_item (JDict d)) = JDict d' /\
    dict_get key_label d' = dict_get key_label d /\
    (label_in (get_default key_label d) hashtag_labels = false -> d' = d) /\
    (label_in (get_default key_label d) hashtag_labels = true ->
     get_default key_value d' = fix_value (get_default key_value d)).
Proof.
  unfold process_item.
  destruct (label_in (get_default key_label d) hashtag_labels) eqn:L.
  - destruct (differs (fix_value (get_default key_value d)) (get_default key_value d)) eqn:D.
    + exists (dict_set key_value (fix_value (get_default key_value d)) d).
      split; [reflexivity|]. split; [|split].
      * apply dict_get_set_other, key_label_value.
      * discriminate.
      * intros _. unfold get_default at 1. rewrite dict_get_set_same. reflexivity.
    + exists d. split; [reflexivity|]. split; [reflexivity|]. split.
      * reflexivity.
      * intros _. symmetry. apply differs_fix_value. assumption.
  - exists d. split; [reflexivity|]. split; [reflexivity|]. split.
    + reflexivity.
    + discriminate.
Qed.

Lemma process_item_other (item : json) :
  (forall d, item <> JDict d) -> fst (process_item item) = item.
Proof.
  intros H. destruct item; try reflexivity. exfalso. apply (H d). reflexivity.
Qed.

(** The [scripts/] version does what C7 says: in the processed file
    every item is the image of the item at its place, an object keeps
    its label, an object whose label is outside the label set is
    unchanged, and an item that is not an object is unchanged. *)
Lemma process_json_file_frame (data : dict json) (items : list json) :
  dict_get key_data data = Some (JList items) ->
  exists items',
    fst (process_json_file data) = dict_set key_data (JList items') data /\
    Forall2
      (fun item item' =>
         (forall d, item = JDict d ->
            exists d', item' = JDict d' /\
              dict_get key_label d' = dict_get key_label d /\
              (label_in (get_default key_label d) hashtag_labels = false -> d' = d) /\
              (label_in (get_default key_label d) hashtag_labels = true ->
               get_default key_value d' = fix_value (get_default key_value d))) /\
         ((forall d, item <> JDict d) -> item' = item))
      items items'.
Proof.
  intros Hd. exists (map (fun item => fst (process_item item)) items). split.
  - unfold process_json_file. rewrite Hd.
    pose proof (process_items_map items false) as H.
    destruct (process_items items false) as [items' modified].
    simpl in *. rewrite H. reflexivity.
  - clear Hd. induction items as [|item items IH]; simpl; constructor; [|assumption].
    split.
    + intros d ->. apply process_item_dict.
    + apply process_item_other.
Qed.

(** C7 on the top-level script: [process_file] has no label test.  It
    rewrites the value of an entry whose label is outside the label
    set, where [process_json_file] of [scripts/] leaves the file as it
    is. *)
Theorem process_file_ignores_label :
  label_in (JStr (u "팬네임")) hashtag_labels = false /\
  ProcessFile.process_file fan_name_profile =
    Some ([ (key_data, JList [ JDict [ (key_label, JStr (u "팬네임"));
                                       (key_value, JStr (u "밈: そらとも")) ] ]) ],
          true) /\
  process_json_file fan_name_profile = (fan_name_profile, false).
Proof. vm_compute. repeat split. Qed.

End ProfileFacts.

(* ================================================================== *)
(** * Name matching *)
(* ================================================================== *)

Section Matching.


(** The test is symmetric. *)
Lemma matches_sym (x y : pystr) : matches x y = matches y x.
Proof. unfold matches. apply orb_comm. Qed.

Lemma matches_any_spec (s j : pystr) (l : list pystr) :
  matches_any s j l = true <-> matches s j = true \/ exists a, In a l /\ matches s a = true.
Proof.
  unfold matches_any, matches. rewrite orb_true_iff, existsb_exists. reflexivity.
Qed.

(** The test stays true when the alias list grows. *)
Lemma matches_any_app (s j : pystr) (l ext : list pystr) :
  matches_any s j l = true -> matches_any s j (l ++ ext) = true.
Proof.
  rewrite !matches_any_spec. intros [H | (a & Ha & H)]; [left; assumption|].
  right. exists a. split; [apply in_or_app; left|]; assumption.
Qed.

End Matching.

(* ================================================================== *)
(** * Alias merging *)
(* ================================================================== *)

Section Merging.

Lemma count_occ_app_one (l : list pystr) (c : pystr) :
  count_occ str_eq_dec (l ++ [c]) c = S (count_occ str_eq_dec l c).
Proof.
  rewrite count_occ_app. simpl. destruct (str_eq_dec c c); [lia | congruence].
Qed.

Lemma NoDup_app_one (l : list pystr) (c : pystr) :
  NoDup l -> ~ In c l -> NoDup (l ++ [c]).
Proof.
  intros Hl Hc. induction Hl as [|a l Ha Hl IH]; simpl.
  - constructor; [intros [] | constructor].
  - constructor.
    + intros H. apply in_app_or in H as [H | [H | []]]; [contradiction|].
      subst. apply Hc. left. reflexivity.
    + apply IH. intros H. apply Hc. right. assumption.
Qed.

Lemma um_merge_present (l : list pystr) (c : pystr) :
  In c l -> UpdateMembers.merge l c = (l, false).
Proof.
  intros H. unfold UpdateMembers.merge.
  apply list_in_In in H. rewrite H. reflexivity.
Qed.

Lemma um_merge_absent (l : list pystr) (c : pystr) :
  ~ In c l -> UpdateMembers.merge l c = (l ++ [c], true).
Proof.
  intros H. unfold UpdateMembers.merge.
  apply list_in_not_In in H. rewrite H. reflexivity.
Qed.

Lemma sync_merge_present (l : list pystr) (c j : pystr) :
  In c l -> SyncOfficialNames.merge l c j = (l, false).
Proof.
  intros H. unfold SyncOfficialNames.merge.
  apply list_in_In in H. rewrite H. reflexivity.
Qed.

Lemma sync_merge_canonical (l : list pystr) (c : pystr) :
  SyncOfficialNames.merge l c c = (l, false).
Proof.
  unfold SyncOfficialNames.merge. rewrite str_eqb_refl, andb_false_r. reflexivity.
Qed.

Lemma sync_merge_absent (l : list pystr) (c j : pystr) :
  ~ In c l -> c <> j -> SyncOfficialNames.merge l c j = (l ++ [c], true).
Proof.
  intros H Hj. unfold SyncOfficialNames.merge.
  apply list_in_not_In in H. apply str_eqb_neq in Hj. rewrite H, Hj. reflexivity.
Qed.

(** C6, as stated, fails in two places.  A list that already holds
    the candidate twice is returned as it is, so the candidate does
    not appear at most once after the merge; and the merge of
    [sync_official_names] does not append an absent candidate that
    equals the member's [nameJa]. *)
Lemma merge_keeps_duplicates :
  UpdateMembers.merge [u "そら"; u "そら"] (u "そら") = ([u "そら"; u "そら"], false) /\
  count_occ str_eq_dec (fst (UpdateMembers.merge [u "そら"; u "そら"] (u "そら"))) (u "そら")
    = 2 /\
  ~ In (u "ときのそら") [] /\
  SyncOfficialNames.merge [] (u "ときのそら") (u "ときのそら") = ([], false).
Proof. vm_compute. repeat split. intros []. Qed.

(** C6, amended: the merge step of [update_members] and of
    [sync_official_names].  A candidate already in the list leaves the
    list as it is with [added = false]; an absent candidate is appended
    at the end, after the prior entries in their order, except that
    the merge of [sync_official_names] rejects a candidate equal to the
    member's [nameJa].  The merge introduces no duplicate: the
    candidate occurs afterwards as often as before when it was present
    and at most once when it was absent, so it occurs at most once in
    every list that held it at most once, and a list without
    duplicates stays without duplicates; merging the candidate again
    changes nothing. *)
Theorem merge_no_duplicate (l : list pystr) (c : pystr) :
  (In c l -> UpdateMembers.merge l c = (l, false)) /\
  (~ In c l -> UpdateMembers.merge l c = (l ++ [c], true)) /\
  count_occ str_eq_dec (fst (UpdateMembers.merge l c)) c
    = Nat.max 1 (count_occ str_eq_dec l c) /\
  (count_occ str_eq_dec l c <= 1 ->
   count_occ str_eq_dec (fst (UpdateMembers.merge l c)) c <= 1) /\
  (NoDup l -> NoDup (fst (UpdateMembers.merge l c))) /\
  UpdateMembers.merge (fst (UpdateMembers.merge l c)) c
    = (fst (UpdateMembers.merge l c), false) /\
  forall member_ja,
    (In c l -> SyncOfficialNames.merge l c member_ja = (l, false)) /\
    (c = member_ja -> SyncOfficialNames.merge l c member_ja = (l, false)) /\
    (~ In c l -> c <> member_ja ->
     SyncOfficialNames.merge l c member_ja = (l ++ [c], true)) /\
    count_occ str_eq_dec (fst (SyncOfficialNames.merge l c member_ja)) c
      = (if str_eqb c member_ja then count_occ str_eq_dec l c
         else Nat.max 1 (count_occ str_eq_dec l c)) /\
    (count_occ str_eq_dec l c <= 1 ->
     count_occ str_eq_dec (fst (SyncOfficialNames.merge l c member_ja)) c <= 1) /\
    (NoDup l -> NoDup (fst (SyncOfficialNames.merge l c member_ja))) /\
    SyncOfficialNames.merge (fst (SyncOfficialNames.merge l c member_ja)) c member_ja
      = (fst (SyncOfficialNames.merge l c member_ja), false).
Proof.
  assert (Hcount : In c l ->
                   count_occ str_eq_dec l c = Nat.max 1 (count_occ str_eq_dec l c)).
  { intros H. apply (count_occ_In str_eq_dec) in H. lia. }
  assert (Hzero : ~ In c l ->
                  count_occ str_eq_dec (l ++ [c]) c
                  = Nat.max 1 (count_occ str_eq_dec l c)).
  { intros H. rewrite count_occ_app_one.
    apply (count_occ_not_In str_eq_dec) in H. rewrite H. reflexivity. }
  split; [apply um_merge_present|]. split; [apply um_merge_absent|].
  destruct (in_dec str_eq_dec c l) as [Hin | Hout].
  - rewrite (um_merge_present _ _ Hin). simpl.
    split; [apply Hcount; assumption|]. split; [trivial|]. split; [trivial|].
    split; [apply um_merge_present; assumption|].
    intros j. split; [apply sync_merge_present|].
    split; [intros ->; apply sync_merge_canonical|].
    split; [intros H; contradiction|].
    rewrite (sync_merge_present _ _ j Hin). simpl.
    split; [destruct (str_eqb c j); [reflexivity | apply Hcount; assumption]|].
    split; [trivial|]. split; [trivial|].
    apply sync_merge_present. assumption.
  - rewrite (um_merge_absent _ _ Hout). simpl.
    assert (Hnew : In c (l ++ [c])) by (apply in_or_app; right; left; reflexivity).
    pose proof (Hzero Hout) as Hz.
    pose proof (proj1 (count_occ_not_In str_eq_dec l c) Hout) as H0.
    split; [assumption|]. split; [intros _; rewrite Hz, H0; reflexivity|].
    split; [intros Hl; apply NoDup_app_one; assumption|].
    split; [apply um_merge_present; assumption|].
    intros j. split; [intros H; contradiction|].
    split; [intros ->; apply sync_merge_canonical|].
    split; [intros _; apply sync_merge_absent; assumption|].
    destruct (str_eqb c j) eqn:Q.
    + apply str_eqb_eq in Q. subst j. rewrite sync_merge_canonical. simpl.
      split; [reflexivity|]. split; [trivial|]. split; [trivial|].
      apply sync_merge_canonical.
    + apply str_eqb_neq in Q. rewrite (sync_merge_absent _ Hout Q). simpl.
      split; [assumption|]. split; [intros _; rewrite Hz, H0; reflexivity|].
      split; [intros Hl; apply NoDup_app_one; assumption|].
      apply sync_merge_present. assumption.
Qed.

(** Scenario 3 of the design, through the theorem: the first merge of
    an alias into an empty list appends it, the second changes nothing,
    and the list stays without duplicates; the merge of
    [sync_official_names] rejects the member's own [nameJa]. *)
Lemma merge_no_duplicate_witness :
  UpdateMembers.merge [] (u "아즈키") = ([u "아즈키"], true) /\
  UpdateMembers.merge [u "아즈키"] (u "아즈키") = ([u "아즈키"], false) /\
  NoDup (fst (UpdateMembers.merge [] (u "아즈키"))) /\
  count_occ str_eq_dec (fst (UpdateMembers.merge [] (u "아즈키"))) (u "아즈키") <= 1 /\
  SyncOfficialNames.merge [] (u "아즈키") (u "AZKi") = ([u "아즈키"], true) /\
  SyncOfficialNames.merge [] (u "AZKi") (u "AZKi") = ([], false).
Proof.
  pose proof (merge_no_duplicate [] (u "아즈키")) as (_ & H2 & _ & H4 & H5 & _ & H7).
  split; [apply H2; intros []|].
  split; [apply (proj1 (merge_no_duplicate [u "아즈키"] (u "아즈키"))); left; reflexivity|].
  split; [apply H5, NoDup_nil|].
  split; [apply H4; simpl; lia|].
  split.
  - apply (proj1 (proj2 (proj2 (H7 (u "AZKi"))))).
    + intros [].
    + vm_compute. discriminate.
  - pose proof (merge_no_duplicate [] (u "AZKi")) as (_ & _ & _ & _ & _ & _ & K7).
    apply (proj1 (proj2 (K7 (u "AZKi")))). reflexivity.
Defined.

End Merging.

(* ================================================================== *)
(** * Resolution of [nameKo] *)
(* ================================================================== *)

Section NameKo.

Lemma dict_get_In {V : Type} (k : pystr) (v : V) (d : dict V) :
  dict_get k d = Some v -> In v (map snd d).
Proof.
  induction d as [|[k' v'] d IH]; simpl; [discriminate|].
  destruct (str_eqb k' k); intros H.
  - injection H as ->. left. reflexivity.
  - right. apply IH. assumption.
Qed.

Lemma mapping_values_nonempty :
  forallb nonempty (map snd UpdateMembers.mapping) = true.
Proof. vm_compute. reflexivity. Qed.

Lemma official_values_nonempty :
  forallb nonempty (map snd FixKoreanNames.OFFICIAL_KOREAN_NAMES) = true.
Proof. vm_compute. reflexivity. Qed.

Lemma table_value_nonempty (d : dict pystr) (k v : pystr) :
  forallb nonempty (map snd d) = true -> dict_get k d = Some v -> v <> [].
Proof.
  intros Hall Hget. apply dict_get_In in Hget.
  rewrite forallb_forall in Hall. apply nonempty_neq, Hall. assumption.
Qed.

Lemma romanize_nonempty (n : pystr) :
  n <> [] -> UpdateMembers.romanize_to_korean n <> [].
Proof.
  intros Hn. unfold UpdateMembers.romanize_to_korean.
  destruct (dict_get n UpdateMembers.mapping) eqn:E; [|assumption].
  apply (table_value_nonempty _ _ mapping_values_nonempty E).
Qed.

Lemma nameKo_present (m : member) :
  nameKo_missing m = false -> exists k, nameKo m = Some k /\ k <> [].
Proof.
  unfold nameKo_missing. destruct (nameKo m) as [[|a k]|]; try discriminate.
  intros _. exists (a :: k). split; [reflexivity | discriminate].
Qed.

Lemma first_ko_truthy (m : member) (first : pystr) (rest : list pystr) :
  truthy_aliases key_ko m = Some (first :: rest) -> first_ko m = Some first.
Proof. unfold first_ko. intros ->. reflexivity. Qed.

(** Scenario 4 of the design: with an empty [nameKo] and no Korean
    alias the table of [romanize_to_korean] decides, and a name outside
    the table stands for itself. *)
Example scenario_4 :
  UpdateMembers.romanize_to_korean (u "AZKi") = u "아즈키" /\
  UpdateMembers.romanize_to_korean (u "Gawr Gura") = u "Gawr Gura".
Proof. vm_compute. split; reflexivity. Qed.

(** C9, as stated, fails: a first Korean alias that is the empty string
    is taken over as [nameKo] by [update_members] and by
    [sync_official_names]. *)
Lemma nameKo_from_empty_alias :
  name sora_empty_ko_alias <> [] /\
  nameKo (fst (UpdateMembers.update_member [] UpdateMembers.zero sora_empty_ko_alias))
    = Some [] /\
  nameKo (fst (SyncOfficialNames.sync_member [] [] SyncOfficialNames.zero
                 sora_empty_ko_alias))
    = Some [].
Proof. vm_compute. repeat split. discriminate. Qed.

(** C9, amended: for a member whose [name] is not empty and whose first
    Korean alias, if it has one, is not empty, each script leaves a
    non-empty [nameKo]: the "add nameKo" step of [update_members] and
    of [sync_official_names], and the loop body of [fix_korean_names]. *)
Theorem nameKo_never_empty (m : member) :
  ko_sources_nonempty m ->
  (exists k, nameKo (fst (UpdateMembers.add_nameKo m)) = Some k /\ k <> []) /\
  (exists k, nameKo (fst (SyncOfficialNames.add_nameKo m)) = Some k /\ k <> []) /\
  (forall r, exists k, nameKo (fst (FixKoreanNames.fix_member r m)) = Some k /\ k <> []).
Proof.
  intros [Hname Hfirst]. split; [|split].
  - unfold UpdateMembers.add_nameKo.
    destruct (nameKo_missing m) eqn:M; [|apply nameKo_present; assumption].
    destruct (truthy_aliases key_ko m) as [[|first rest]|] eqn:T; simpl.
    + eexists; split; [reflexivity | apply romanize_nonempty; assumption].
    + exists first. split; [reflexivity|].
      intros ->. apply Hfirst. apply (first_ko_truthy _ T).
    + eexists; split; [reflexivity | apply romanize_nonempty; assumption].
  - unfold SyncOfficialNames.add_nameKo.
    destruct (nameKo_missing m) eqn:M; [|apply nameKo_present; assumption].
    destruct (truthy_aliases key_ko m) as [[|first rest]|] eqn:T; simpl.
    + exists (name m). split; [reflexivity | assumption].
    + exists first. split; [reflexivity|].
      intros ->. apply Hfirst. apply (first_ko_truthy _ T).
    + exists (name m). split; [reflexivity | assumption].
  - intros r. unfold FixKoreanNames.fix_member.
    destruct (dict_get (name m) FixKoreanNames.OFFICIAL_KOREAN_NAMES) as [new_ko|] eqn:E.
    + pose proof (table_value_nonempty _ _ official_values_nonempty E) as Hnew.
      destruct (str_eqb (FixKoreanNames.old_ko_of m) new_ko) eqn:Q; simpl.
      * apply str_eqb_eq in Q. unfold FixKoreanNames.old_ko_of in Q.
        destruct (nameKo m) as [k|]; [|congruence].
        exists k. split; [reflexivity | congruence].
      * exists new_ko. split; [reflexivity | assumption].
    + destruct (nameKo_missing m) eqn:M; simpl.
      * exists (name m). split; [reflexivity | assumption].
      * apply nameKo_present. assumption.
Qed.

Lemma nameKo_never_empty_witness :
  exists k, nameKo (fst (UpdateMembers.add_nameKo azki_fresh)) = Some k /\ k <> [].
Proof.
  apply (nameKo_never_empty (m := azki_fresh)).
  split; vm_compute; discriminate.
Defined.

End NameKo.

(* ================================================================== *)
(** * The loop of [sync_official_names] *)
(* ================================================================== *)

Section SyncLoop.

Import SyncOfficialNames.

Variable member_ja : pystr.

(** The loop only appends, and what it appends are schedule names
    different from [member_ja]. *)
Lemma add_schedule_names_appends (names l : list pystr) (n : nat) :
  exists ext,
    add_schedule_names member_ja names l n = (l ++ ext, n + List.length ext) /\
    forall a, In a ext -> In a names /\ a <> member_ja.
Proof.
  revert l n; induction names as [|s names IH]; intros l n.
  - exists []. simpl. rewrite app_nil_r, Nat.add_0_r. split; [reflexivity | intros ? []].
  - simpl. destruct (matches_any s member_ja l).
    + unfold merge.
      destruct (negb (list_in s l) && negb (str_eqb s member_ja)) eqn:E.
      * destruct (IH (l ++ [s]) (S n)) as (ext & -> & Hext).
        exists (s :: ext). rewrite <- app_assoc. simpl.
        rewrite Nat.add_succ_r. split; [reflexivity|].
        apply andb_true_iff in E as [_ E].
        apply negb_true_iff, str_eqb_neq in E.
        intros a [<- | Ha]; [split; [left; reflexivity | assumption]|].
        destruct (Hext a Ha). split; [right|]; assumption.
      * destruct (IH l n) as (ext & -> & Hext).
        exists ext. split; [reflexivity|].
        intros a Ha. destruct (Hext a Ha). split; [right|]; assumption.
    + destruct (IH l n) as (ext & -> & Hext).
      exists ext. split; [reflexivity|].
      intros a Ha. destruct (Hext a Ha). split; [right|]; assumption.
Qed.

(** Every schedule name that matches the member is in the list
    afterwards, unless it is [member_ja] itself. *)
Lemma add_schedule_names_receives (names l : list pystr) (n : nat) (s : pystr) :
  In s names -> matches_any s member_ja l = true ->
  s = member_ja \/ In s (fst (add_schedule_names member_ja names l n)).
Proof.
  revert l n; induction names as [|s0 names IH]; intros l n [].
  - subst s0. intros Hm. simpl. rewrite Hm. unfold merge.
    destruct (list_in s l) eqn:Hin; simpl.
    + right. apply list_in_In in Hin.
      destruct (add_schedule_names_appends names l n) as (ext & -> & _).
      simpl. apply in_or_app. left. assumption.
    + destruct (str_eqb s member_ja) eqn:Hj; simpl.
      * left. apply str_eqb_eq. assumption.
      * right.
        destruct (add_schedule_names_appends names (l ++ [s]) (S n)) as (ext & -> & _).
        simpl. apply in_or_app. left. apply in_or_app. right. left. reflexivity.
  - intros Hm. simpl. destruct (matches_any s0 member_ja l); [|apply IH; assumption].
    unfold merge.
    destruct (negb (list_in s0 l) && negb (str_eqb s0 member_ja));
      apply IH; try assumption.
    apply matches_any_app. assumption.
Qed.

(** When every matching schedule name is already there, the loop
    changes nothing. *)
Lemma add_schedule_names_stable (names l : list pystr) (n : nat) :
  (forall s, In s names -> matches_any s member_ja l = true ->
             In s l \/ s = member_ja) ->
  add_schedule_names member_ja names l n = (l, n).
Proof.
  induction names as [|s names IH]; intros H; [reflexivity|].
  simpl. destruct (matches_any s member_ja l) eqn:Hm.
  - assert (E : merge l s member_ja = (l, false)).
    { destruct (H s (or_introl eq_refl) Hm) as [Hin | ->].
      - apply sync_merge_present. assumption.
      - apply sync_merge_canonical. }
    rewrite E. apply IH. intros s' Hs'. apply H. right. assumption.
  - apply IH. intros s' Hs'. apply H. right. assumption.
Qed.

(** After one run over unrelated schedule names a second run over the
    same names, in whatever order, finds nothing to add. *)
Lemma add_schedule_names_twice (names names' l : list pystr) (n n' : nat) :
  unrelated names -> incl names' names ->
  add_schedule_names member_ja names'
    (fst (add_schedule_names member_ja names l n)) n'
  = (fst (add_schedule_names member_ja names l n), n').
Proof.
  intros Hun Hincl. apply add_schedule_names_stable. intros s Hs Hm.
  apply Hincl in Hs.
  destruct (add_schedule_names_appends names l n) as (ext & E & Hext).
  assert (Hrecv : matches_any s member_ja l = true ->
                  In s (fst (add_schedule_names member_ja names l n)) \/ s = member_ja).
  { intros G. destruct (add_schedule_names_receives names l n s Hs G);
      [right | left]; assumption. }
  rewrite E in *. simpl fst in *.
  apply matches_any_spec in Hm as [Hm | (a & Ha & Hm)].
  - apply Hrecv, matches_any_spec. left. assumption.
  - apply in_app_or in Ha as [Ha | Ha].
    + apply Hrecv, matches_any_spec. right. exists a. split; assumption.
    + left. apply in_or_app. right.
      destruct (Hext a Ha) as [Hnames _].
      unfold matches in Hm. apply orb_true_iff in Hm as [Hm | Hm].
      * rewrite (Hun s a Hs Hnames Hm). assumption.
      * rewrite <- (Hun a s Hnames Hs Hm). assumption.
Qed.

(** The loop never appends [member_ja]. *)
Lemma add_schedule_names_not_canonical (names l : list pystr) (n : nat) :
  ~ In member_ja l -> ~ In member_ja (fst (add_schedule_names member_ja names l n)).
Proof.
  intros Hl. destruct (add_schedule_names_appends names l n) as (ext & -> & Hext).
  simpl. intros H. apply in_app_or in H as [H | H]; [contradiction|].
  destruct (Hext _ H) as [_ Hne]. congruence.
Qed.

End SyncLoop.

Section SyncMember.

Import SyncOfficialNames.

Variable official_map : dict pystr.
Variable order : list pystr.

(** The loop body in closed form. *)
Lemma sync_member_unfold (c : counters) (m : member) :
  sync_member official_map order c m =
    let r1 := sync_nameJa official_map m in
    let r2 := add_nameKo (fst r1) in
    let d := ensure_ja (fst r2) in
    let r3 := add_schedule_names (member_ja_of (fst r2)) order (ja_aliases_of d) 0 in
    let updated := snd r1 || snd r2 || negb (snd r3 =? 0) in
    (set_aliases (fst r2) (dict_set key_ja (fst r3) d),
     {| updated_count := updated_count c + (if updated then 1 else 0);
        nameJa_updated := nameJa_updated c + (if snd r1 then 1 else 0);
        nameKo_added := nameKo_added c + (if snd r2 then 1 else 0);
        ja_alias_added := ja_alias_added c + snd r3 |}).
Proof.
  unfold sync_member. cbv zeta.
  destruct (sync_nameJa official_map m) as [m1 b1]. cbn [fst snd].
  destruct (add_nameKo m1) as [m2 b2]. cbn [fst snd].
  destruct (add_schedule_names (member_ja_of m2) order (ja_aliases_of (ensure_ja m2)) 0)
    as [l n].
  reflexivity.
Qed.

(** The member after the body does not depend on the counters. *)
Lemma sync_member_counters (c c' : counters) (m : member) :
  fst (sync_member official_map order c m) = fst (sync_member official_map order c' m).
Proof. rewrite !sync_member_unfold. reflexivity. Qed.

Lemma sync_nameJa_fields (m : member) :
  name (fst (sync_nameJa official_map m)) = name m /\
  nameKo (fst (sync_nameJa official_map m)) = nameKo m /\
  aliases (fst (sync_nameJa official_map m)) = aliases m.
Proof.
  unfold sync_nameJa. destruct (dict_get (name m) official_map); [|repeat split].
  destruct (negb (opt_str_eqb (nameJa m) p)); repeat split.
Qed.

Lemma add_nameKo_fields (m : member) :
  name (fst (add_nameKo m)) = name m /\
  nameJa (fst (add_nameKo m)) = nameJa m /\
  aliases (fst (add_nameKo m)) = aliases m.
Proof.
  unfold add_nameKo. destruct (nameKo_missing m); [|repeat split].
  destruct (truthy_aliases key_ko m) as [[|? ?]|]; repeat split.
Qed.

(** After step 1 the member has the official [nameJa], if there is one. *)
Lemma sync_nameJa_result (m : member) (official_ja : pystr) :
  dict_get (name m) official_map = Some official_ja ->
  nameJa (fst (sync_nameJa official_map m)) = Some official_ja.
Proof.
  intros E. unfold sync_nameJa. rewrite E.
  destruct (opt_str_eqb (nameJa m) official_ja) eqn:Q; simpl; [|reflexivity].
  unfold opt_str_eqb in Q. destruct (nameJa m) as [x|]; [|discriminate].
  apply str_eqb_eq in Q. congruence.
Qed.

Lemma ja_aliases_of_ensure_ja (m : member) :
  ja_aliases_of (ensure_ja m) = ja_list m.
Proof.
  unfold ja_aliases_of, ensure_ja, ja_list. destruct (aliases m) as [d|].
  - destruct (dict_get key_ja d) eqn:E; [rewrite E; reflexivity|].
    rewrite dict_get_set_same. reflexivity.
  - simpl. reflexivity.
Qed.

Lemma ensure_ja_has_ja (m : member) :
  dict_get key_ja (ensure_ja m) = Some (ja_list m).
Proof.
  unfold ensure_ja, ja_list. destruct (aliases m) as [d|].
  - destruct (dict_get key_ja d) eqn:E; [assumption|].
    apply dict_get_set_same.
  - reflexivity.
Qed.

Lemma dict_set_twice {V : Type} (k : pystr) (v w : V) (d : dict V) :
  dict_set k v (dict_set k w d) = dict_set k v d.
Proof.
  induction d as [|[k0 v0] d IH]; simpl.
  - rewrite str_eqb_refl. reflexivity.
  - destruct (str_eqb k0 k) eqn:E; simpl; rewrite E; [reflexivity|].
    rewrite IH. reflexivity.
Qed.

(** The member the loop body leaves, and its [ja] aliases. *)
Lemma sync_member_result (c : counters) (m : member) :
  let m2 := fst (add_nameKo (fst (sync_nameJa official_map m))) in
  let m' := fst (sync_member official_map order c m) in
  name m' = name m /\ nameJa m' = nameJa m2 /\ nameKo m' = nameKo m2 /\
  ja_list m2 = ja_list m /\
  aliases m' = Some (dict_set key_ja (ja_list m') (ensure_ja m2)) /\
  ja_list m' = fst (add_schedule_names (member_ja_of m2) order (ja_list m) 0).
Proof.
  intros m2 m'. subst m'. rewrite sync_member_unfold. simpl fst. fold m2.
  destruct (sync_nameJa_fields m) as (N1 & K1 & A1).
  destruct (add_nameKo_fields (fst (sync_nameJa official_map m))) as (N2 & J2 & A2).
  fold m2 in N2, J2, A2.
  assert (HL : ja_list m2 = ja_list m).
  { unfold ja_list. rewrite A2, A1. reflexivity. }
  assert (HJ : forall l, ja_list (set_aliases m2 (dict_set key_ja l (ensure_ja m2))) = l).
  { intros l. unfold ja_list. simpl. rewrite dict_get_set_same. reflexivity. }
  rewrite HJ, ja_aliases_of_ensure_ja, HL.
  repeat split; simpl; congruence.
Qed.

End SyncMember.

Section SyncTwice.

Import SyncOfficialNames.

Variable official_map : dict pystr.

(** The iteration orders of the set of schedule names in the first and
    in the second run. *)
Variables order order' : list pystr.

Lemma add_nameKo_present (m : member) :
  ko_sources_nonempty m -> nameKo_missing (fst (add_nameKo m)) = false.
Proof.
  intros [Hname Hfirst]. unfold add_nameKo.
  destruct (nameKo_missing m) eqn:M; [|assumption].
  assert (H : forall k, k <> [] -> nameKo_missing (set_nameKo m k) = false).
  { intros [|a k] Hk; [congruence | reflexivity]. }
  destruct (truthy_aliases key_ko m) as [[|first rest]|] eqn:T; simpl;
    apply H; try assumption.
  intros ->. apply Hfirst. apply (first_ko_truthy _ T).
Qed.

Lemma set_aliases_same (m : member) (d : dict (list pystr)) :
  aliases m = Some d -> set_aliases m d = m.
Proof. destruct m as [n j k a]. simpl. intros ->. reflexivity. Qed.

Lemma counters_unchanged (c : counters) :
  {| updated_count := updated_count c + 0;
     nameJa_updated := nameJa_updated c + 0;
     nameKo_added := nameKo_added c + 0;
     ja_alias_added := ja_alias_added c + 0 |} = c.
Proof. destruct c. simpl. rewrite !Nat.add_0_r. reflexivity. Qed.

(** The loop body applied to the member it has produced changes
    neither the member nor the counters. *)
Lemma sync_member_twice (c c' : counters) (m : member) :
  unrelated order -> incl order' order -> ko_sources_nonempty m ->
  sync_member official_map order' c' (fst (sync_member official_map order c m))
  = (fst (sync_member official_map order c m), c').
Proof.
  intros Hun Hincl Hko.
  destruct (sync_member_result official_map order c m) as (N & J & K & L2 & A & L).
  destruct (sync_nameJa_fields official_map m) as (N1 & K1 & A1).
  destruct (add_nameKo_fields (fst (sync_nameJa official_map m))) as (N2 & J2 & A2).
  set (m1 := fst (sync_nameJa official_map m)) in *.
  set (m2 := fst (add_nameKo m1)) in *.
  set (m' := fst (sync_member official_map order c m)) in *.
  assert (S1 : sync_nameJa official_map m' = (m', false)).
  { unfold sync_nameJa. rewrite N.
    destruct (dict_get (name m) official_map) as [oj|] eqn:E; [|reflexivity].
    rewrite J, J2. unfold m1. rewrite (sync_nameJa_result _ _ E).
    simpl. rewrite str_eqb_refl. reflexivity. }
  assert (S2 : add_nameKo m' = (m', false)).
  { unfold add_nameKo.
    assert (M : nameKo_missing m' = false).
    { unfold nameKo_missing. rewrite K.
      apply (add_nameKo_present (m := m1)).
      destruct Hko as [Hn Hf]. split; [rewrite N1; assumption|].
      unfold first_ko, truthy_aliases in *. rewrite A1. assumption. }
    rewrite M. reflexivity. }
  assert (S3 : ensure_ja m' = dict_set key_ja (ja_list m') (ensure_ja m2)).
  { unfold ensure_ja at 1. rewrite A, dict_get_set_same. reflexivity. }
  assert (S4 : member_ja_of m' = member_ja_of m2).
  { unfold member_ja_of. rewrite J. reflexivity. }
  assert (S5 : add_schedule_names (member_ja_of m2) order' (ja_list m') 0
               = (ja_list m', 0)).
  { rewrite L. apply add_schedule_names_twice; assumption. }
  clearbody m' m2 m1.
  rewrite sync_member_unfold. cbv zeta. rewrite S1. cbn [fst snd].
  rewrite S2. cbn [fst snd].
  rewrite ja_aliases_of_ensure_ja, S3, S4, dict_set_twice, S5. cbn [fst snd].
  rewrite (set_aliases_same _ A).
  change (if false || false || negb (0 =? 0) then 1 else 0) with 0.
  change (if false then 1 else 0) with 0.
  rewrite counters_unchanged. reflexivity.
Qed.

Lemma sync_members_twice (members : list member) :
  unrelated order -> incl order' order ->
  (forall m, In m members -> ko_sources_nonempty m) ->
  forall c c',
    sync_members official_map order' (fst (sync_members official_map order members c)) c'
    = (fst (sync_members official_map order members c), c').
Proof.
  intros Hun Hincl.
  induction members as [|m members IH]; intros Hko c c'; [reflexivity|].
  simpl.
  pose proof (sync_member_twice c c' Hun Hincl (Hko m (or_introl eq_refl))) as Hm.
  destruct (sync_member official_map order c m) as [m' c1]. simpl in Hm.
  specialize (IH (fun x Hx => Hko x (or_intror Hx)) c1 c').
  destruct (sync_members official_map order members c1) as [rest' c2].
  simpl in *. rewrite Hm, IH. reflexivity.
Qed.

(** The registry after the loop holds, at each place, the image of the
    member at that place. *)
Lemma sync_members_nth (members : list member) (c : counters) (i : nat) :
  nth_error (fst (sync_members official_map order members c)) i
  = option_map (fun m => fst (sync_member official_map order zero m))
               (nth_error members i).
Proof.
  revert c i; induction members as [|m members IH]; intros c i.
  - destruct i; reflexivity.
  - simpl sync_members.
    pose proof (sync_member_counters official_map order c zero m) as Hc.
    destruct (sync_member official_map order c m) as [m' c1].
    specialize (IH c1).
    destruct (sync_members official_map order members c1) as [rest' c2].
    simpl in *. destruct i as [|i]; simpl.
    + rewrite Hc. reflexivity.
    + apply IH.
Qed.

End SyncTwice.

(* ================================================================== *)
(** * Runs of [sync_official_names] and [update_members] *)
(* ================================================================== *)

Section Runs.

Import SyncOfficialNames.

(** C1, as stated, fails.  The loop over the schedule names tests each
    name against the alias list as it is at that turn.  With the set
    iterated as ["そらとも"], ["そら"], the first run finds no match for
    ["そらとも"] and then appends ["そら"]; the second run matches
    ["そらとも"] through the alias ["そら"] and appends it.  And a member
    whose first Korean alias is the empty string gets [nameKo] written
    again in every run. *)
Lemma sync_second_run_changes :
  iteration_order [u "そら"; u "そらとも"] [u "そらとも"; u "そら"] /\
  map ja_list (fst (main sora_talents [u "そらとも"; u "そら"] [sora]))
    = [ [u "そら"] ] /\
  map ja_list
      (fst (main sora_talents [u "そらとも"; u "そら"]
              (fst (main sora_talents [u "そらとも"; u "そら"] [sora]))))
    = [ [u "そら"; u "そらとも"] ] /\
  ja_alias_added
      (snd (main sora_talents [u "そらとも"; u "そら"]
              (fst (main sora_talents [u "そらとも"; u "そら"] [sora]))))
    = 1 /\
  nameKo_added
      (snd (main [] [] (fst (main [] [] [sora_empty_ko_alias]))))
    = 1.
Proof.
  split.
  - split.
    + apply NoDup_cons; [|apply NoDup_cons; [intros [] | apply NoDup_nil]].
      intros [H | []]. revert H. vm_compute. discriminate.
    + intros x.
      replace (schedule_filter [u "そら"; u "そらとも"]) with [u "そら"; u "そらとも"]
        by (vm_compute; reflexivity).
      simpl. tauto.
  - vm_compute. repeat split.
Qed.

(** C1, amended: when no schedule name occurs inside a different
    schedule name, and the [name] and the first Korean alias of every
    member are not empty, a second run on the registry the first run
    has produced, with the same inputs, returns that registry and
    leaves every counter at zero.  The set of schedule names may be
    iterated in a different order ([order']) in the second run. *)
Theorem sync_second_run_unchanged
    (official_talents : list (pystr * pystr)) (order order' : list pystr)
    (members : list member) :
  unrelated order ->
  incl order' order ->
  (forall m, In m members -> ko_sources_nonempty m) ->
  main official_talents order' (fst (main official_talents order members))
  = (fst (main official_talents order members), zero).
Proof.
  intros Hun Hincl Hko. unfold main. apply sync_members_twice; assumption.
Qed.

(** Scenario 5 of the design, through the theorem. *)
Lemma sync_second_run_unchanged_witness :
  main sora_talents [u "そら"] (fst (main sora_talents [u "そら"] [sora]))
  = (fst (main sora_talents [u "そら"] [sora]), zero).
Proof.
  apply sync_second_run_unchanged.
  - intros a b [<- | []] [<- | []] _. reflexivity.
  - intros a Ha. exact Ha.
  - intros m [<- | []]. split; vm_compute; discriminate.
Defined.

Example scenario_5 :
  map ja_list (fst (main sora_talents [u "そら"] [sora])) = [ [u "そら"] ] /\
  map ja_list (fst (main sora_talents [u "そら"]
                      (fst (main sora_talents [u "そら"] [sora])))) = [ [u "そら"] ].
Proof. vm_compute. split; reflexivity. Qed.

(** C4, as stated, fails: the loop over the schedule names runs once
    for every member, so a schedule name that matches two members is
    appended to both. *)
Lemma schedule_name_for_two_members :
  list_in (u "アビスガード") denylist = false /\
  map ja_list [fuwawa; mococo] = [ []; [] ] /\
  map ja_list (fst (main [] [u "アビスガード"] [fuwawa; mococo]))
    = [ [u "アビスガード"]; [u "アビスガード"] ] /\
  ja_alias_added (snd (main [] [u "アビスガード"] [fuwawa; mococo])) = 2.
Proof. vm_compute. repeat split. Qed.

(** In [sync_official_names] a run puts the member's [nameJa] into no
    alias list that did not hold it. *)
Lemma sync_member_not_canonical
    (official_map : dict pystr) (order : list pystr) (c : counters) (m : member) :
  let m' := fst (sync_member official_map order c m) in
  ~ In (member_ja_of m') (ja_list m) -> ~ In (member_ja_of m') (ja_list m').
Proof.
  intros m'.
  destruct (sync_member_result official_map order c m) as (_ & J & _ & _ & _ & L).
  fold m' in J, L.
  assert (E : member_ja_of m'
              = member_ja_of (fst (add_nameKo (fst (sync_nameJa official_map m))))).
  { unfold member_ja_of. rewrite J. reflexivity. }
  rewrite L, E. apply add_schedule_names_not_canonical.
Qed.

(** C5 on [update_members]: its merge step tests only whether the name
    is in the list.  A schedule name equal to the member's [nameJa]
    matches the member and is appended to its [ja] aliases, where
    [sync_official_names] rejects it. *)
Theorem update_members_appends_nameJa :
  nameJa sora_with_alias = Some (u "ときのそら") /\
  ja_list sora_with_alias = [u "そら"] /\
  map ja_list (fst (UpdateMembers.main [u "ときのそら"] [sora_with_alias]))
    = [ [u "そら"; u "ときのそら"] ] /\
  map ja_list (fst (main [] [u "ときのそら"] [sora_with_alias]))
    = [ [u "そら"] ].
Proof. vm_compute. repeat split. Qed.

End Runs.

(* ================================================================== *)
(** * Further properties of the label normalizers *)
(* ================================================================== *)

Section LegacyNormalizer.

Lemma legacy_fix_replace_all (s : pystr) :
  Legacy.fix_hashtag_labels s = Normalizer.replace_all legacy_table s.
Proof.
  unfold Legacy.fix_hashtag_labels, legacy_table, Normalizer.replace_all.
  revert s. induction Legacy.LABEL_REPLACEMENTS as [|[jp ko] tbl IH]; intros s.
  - reflexivity.
  - simpl. apply IH.
Qed.

Lemma legacy_table_inert : table_inert legacy_table = true.
Proof. vm_compute. reflexivity. Qed.

(** The top-level [fix_hashtag_labels] leaves none of the strings it
    looks for, and applying it again changes nothing. *)
Theorem legacy_fix_idempotent (s : pystr) :
  no_token legacy_table (Legacy.fix_hashtag_labels s) = true /\
  Legacy.fix_hashtag_labels (Legacy.fix_hashtag_labels s) = Legacy.fix_hashtag_labels s.
Proof.
  assert (H : token_free legacy_table (Legacy.fix_hashtag_labels s)).
  { rewrite legacy_fix_replace_all. apply replace_all_clears, legacy_table_inert. }
  split.
  - apply no_token_spec. assumption.
  - rewrite (legacy_fix_replace_all (Legacy.fix_hashtag_labels s)).
    apply replace_all_token_free. assumption.
Qed.

End LegacyNormalizer.

Section ColonCount.

Lemma colons_cons (c : N) (s : pystr) :
  colons (c :: s) = (if (c =? colon)%N then 1 else 0) + colons s.
Proof.
  unfold colons. simpl. destruct (N.eq_dec c colon) as [E | E].
  - apply N.eqb_eq in E. rewrite E. reflexivity.
  - apply N.eqb_neq in E. rewrite E. reflexivity.
Qed.

Lemma colons_skipn (k : nat) (s : pystr) : colons (skipn k s) <= colons s.
Proof.
  revert s; induction k as [|k IH]; intros [|c s]; simpl; try lia.
  rewrite colons_cons. specialize (IH s). lia.
Qed.

Lemma skipn_skipn_add (a b : nat) (s : pystr) :
  skipn a (skipn b s) = skipn (b + a) s.
Proof.
  revert s; induction b as [|b IH]; intros s; [reflexivity|].
  destruct s as [|c s]; simpl; [destruct a; reflexivity | apply IH].
Qed.

(** A match of the tail [\s*:\s*] holds a colon. *)
Lemma colon_tail_colons (s : pystr) (n : nat) :
  colon_tail s = Some n -> 1 + colons (skipn n s) <= colons s.
Proof.
  unfold colon_tail. destruct (skipn (span_ws s) s) as [|c r] eqn:E; [discriminate|].
  destruct (c =? colon)%N eqn:Ec; [|discriminate].
  intros H. injection H as <-.
  rewrite <- Nat.add_assoc, <- skipn_skipn_add, E. simpl skipn.
  pose proof (colons_skipn (span_ws s) s) as H1. rewrite E, colons_cons, Ec in H1.
  pose proof (colons_skipn (span_ws r) r). lia.
Qed.

Lemma sub_colons_from_colons (k : nat) (s : pystr) :
  colons (sub_colons_from k s) + (if has_colon_run (skipn k s) then 1 else 0)
  <= colons (skipn k s).
Proof.
  revert k; induction s as [|c s IH]; intros k.
  - destruct k; simpl; lia.
  - destruct k as [|k]; [|apply IH].
    simpl skipn. simpl sub_colons_from. simpl has_colon_run.
    rewrite (colons_cons c s).
    destruct (c =? colon)%N eqn:Ec.
    + destruct (colon_tail s) as [n|] eqn:Et.
      * simpl orb. cbv iota. rewrite !colons_cons.
        change (colon =? colon)%N with true. change (space =? colon)%N with false.
        pose proof (IH n). pose proof (colon_tail_colons s Et).
        destruct (has_colon_run (skipn n s)); lia.
      * simpl orb. rewrite colons_cons, Ec. specialize (IH 0). simpl skipn in IH.
        destruct (has_colon_run s); lia.
    + simpl orb. rewrite colons_cons, Ec. specialize (IH 0). simpl skipn in IH.
      destruct (has_colon_run s); lia.
Qed.

(** The colon collapse never adds a colon; it returns its argument
    exactly when the argument has no colon, optional white space,
    colon run, and otherwise the result has fewer colons. *)
Theorem sub_colons_fixed_iff (s : pystr) :
  colons (sub_colons s) <= colons s /\
  (sub_colons s = s <-> has_colon_run s = false) /\
  (has_colon_run s = true -> colons (sub_colons s) < colons s).
Proof.
  pose proof (sub_colons_from_colons 0 s) as H. simpl skipn in H.
  fold (sub_colons s) in H.
  split; [destruct (has_colon_run s); lia|]. split.
  - split.
    + intros E. rewrite E in H. destruct (has_colon_run s); [lia | reflexivity].
    + apply sub_colons_no_run.
  - intros E. rewrite E in H. lia.
Qed.

Lemma sub_colons_fixed_iff_witness :
  colons (sub_colons (u "방송 태그:  : ")) < colons (u "방송 태그:  : ").
Proof.
  apply (proj2 (proj2 (sub_colons_fixed_iff (u "방송 태그:  : ")))).
  vm_compute. reflexivity.
Defined.

End ColonCount.

(* ================================================================== *)
(** * Further properties of the profile processors *)
(* ================================================================== *)

Section DictShape.

Context {V : Type}.

Lemma dict_set_keys (k : pystr) (v w : V) (d : dict V) :
  dict_get k d = Some v -> dict_keys (dict_set k w d) = dict_keys d.
Proof.
  unfold dict_keys. induction d as [|[k0 v0] d IH]; simpl; [discriminate|].
  destruct (str_eqb k0 k); simpl; [reflexivity|].
  intros H. rewrite (IH H). reflexivity.
Qed.

Lemma map_fixed {A : Type} (f : A -> A) (l : list A) :
  map f l = l -> forall x, In x l -> f x = x.
Proof.
  induction l as [|a l IH]; simpl; intros H x []; injection H as H1 H2.
  - subst. assumption.
  - apply IH; assumption.
Qed.

Lemma map_fixed_all {A : Type} (f : A -> A) (l : list A) :
  (forall x, In x l -> f x = x) -> map f l = l.
Proof.
  induction l as [|a l IH]; simpl; intros H; [reflexivity|].
  rewrite (H a (or_introl eq_refl)), IH; [reflexivity|].
  intros x Hx. apply H. right. assumption.
Qed.

End DictShape.

Section ProcessJsonFileFlag.

Import ProcessJsonFile.

Lemma fix_hashtag_labels_empty : Normalizer.fix_hashtag_labels [] = [].
Proof. vm_compute. reflexivity. Qed.

(** A turn writes [item['value']] only when the key is there. *)
Lemma differs_has_value (d : dict json) :
  differs (fix_value (get_default key_value d)) (get_default key_value d) = true ->
  dict_get key_value d = Some (get_default key_value d).
Proof.
  unfold get_default. destruct (dict_get key_value d) as [v|]; [reflexivity|].
  cbn [fix_value differs]. rewrite fix_hashtag_labels_empty. discriminate.
Qed.

Lemma existsb_false {A : Type} (f : A -> bool) (l : list A) :
  existsb f l = false <-> forall x, In x l -> f x = false.
Proof.
  induction l as [|a l IH]; simpl.
  - split; [intros _ x [] | reflexivity].
  - rewrite orb_false_iff, IH. split.
    + intros [H1 H2] x [<- | Hx]; [assumption | apply H2; assumption].
    + intros H. split; [apply H; left; reflexivity|].
      intros x Hx. apply H. right. assumption.
Qed.

(** The flag of a turn stays unset exactly when the turn leaves the
    item as it is and the item does not hold a [NaN] under a label of
    the label set. *)
Lemma process_item_flag (item : json) :
  snd (process_item item) = false <->
  fst (process_item item) = item /\ nan_item item = false.
Proof.
  destruct item; try (split; [split; reflexivity | reflexivity]).
  unfold process_item, nan_item.
  destruct (label_in (get_default key_label d) hashtag_labels) eqn:L;
    [|split; [split; reflexivity | reflexivity]].
  destruct (differs (fix_value (get_default key_value d)) (get_default key_value d)) eqn:D.
  - cbn [fst snd andb]. split; [discriminate|]. intros [E N]. exfalso.
    pose proof (differs_has_value d D) as G.
    injection E as E.
    assert (F : dict_get key_value (dict_set key_value (fix_value (get_default key_value d)) d)
                = Some (fix_value (get_default key_value d))) by apply dict_get_set_same.
    rewrite E, G in F. injection F as F.
    destruct (get_default key_value d); try discriminate.
    + cbn [differs fix_value is_nan_value] in D, N. congruence.
    + cbn [fix_value differs] in D, F. injection F as F.
      rewrite <- F, str_eqb_refl in D. discriminate.
  - cbn [fst snd andb]. split; [intros _; split; [reflexivity|] | reflexivity].
    destruct (get_default key_value d); try reflexivity.
    cbn [differs fix_value] in D. exact D.
Qed.

Lemma process_items_flag (items : list json) (modified : bool) :
  snd (process_items items modified)
  = modified || existsb (fun item => snd (process_item item)) items.
Proof.
  revert modified; induction items as [|item items IH]; intros modified; simpl.
  - rewrite orb_false_r. reflexivity.
  - destruct (process_item item) as [item' m].
    specialize (IH (modified || m)).
    destruct (process_items items (modified || m)) as [rest' modified'].
    simpl in *. rewrite IH, orb_assoc. reflexivity.
Qed.

(** [process_json_file] reports [modified = False] exactly when the
    content it returns is the content it was given and no item holds a
    float [NaN] under a label of the label set.  (For such a [NaN] the
    test [new_value != value] succeeds and the value is written back
    as it was.) *)
Theorem process_json_file_flag (data : dict json) :
  snd (process_json_file data) = false <->
  fst (process_json_file data) = data /\ has_nan data = false.
Proof.
  unfold process_json_file, has_nan.
  destruct (dict_get key_data data) as [[| | | | |items|]|] eqn:E;
    try (split; [split; reflexivity | reflexivity]).
  pose proof (process_items_map items false) as Hmap.
  pose proof (process_items_flag items false) as Hflag.
  destruct (process_items items false) as [items' modified]. simpl in *.
  subst items' modified. rewrite !existsb_false. split.
  - intros H. split.
    + rewrite (map_fixed_all (fun item => fst (process_item item)) items).
      * apply dict_set_get. assumption.
      * intros x Hx. apply process_item_flag, H. assumption.
    + intros x Hx. apply process_item_flag, H. assumption.
  - intros [H N] x Hx.
    assert (G : dict_get key_data
                  (dict_set key_data (JList (map (fun item => fst (process_item item)) items))
                            data)
                = Some (JList (map (fun item => fst (process_item item)) items)))
      by apply dict_get_set_same.
    rewrite H, E in G. injection G as G. symmetry in G.
    apply process_item_flag. split.
    + apply (@map_fixed _ _ _ G x Hx).
    + apply N. assumption.
Qed.

(** The case of a [NaN]: the flag is set and the content is unchanged. *)
Example process_json_file_nan :
  process_json_file nan_profile = (nan_profile, true).
Proof. vm_compute. reflexivity. Qed.

(** [process_json_file] keeps the shape of the file: the keys of the
    file, the number of items, and in every object the keys and every
    value other than [value]. *)
Theorem process_json_file_shape (data : dict json) (items : list json) :
  dict_get key_data data = Some (JList items) ->
  exists items',
    dict_get key_data (fst (process_json_file data)) = Some (JList items') /\
    dict_keys (fst (process_json_file data)) = dict_keys data /\
    List.length items' = List.length items /\
    Forall2
      (fun item item' =>
         forall d, item = JDict d ->
           exists d', item' = JDict d' /\ dict_keys d' = dict_keys d /\
             forall k, k <> key_value -> dict_get k d' = dict_get k d)
      items items'.
Proof.
  intros E. exists (map (fun item => fst (process_item item)) items).
  unfold process_json_file. rewrite E.
  pose proof (process_items_map items false) as Hmap.
  destruct (process_items items false) as [items' modified]. simpl in *. subst items'.
  split; [apply dict_get_set_same|].
  split; [eapply dict_set_keys; exact E|].
  split; [apply length_map|].
  clear E. induction items as [|item items IH]; simpl; constructor; [|assumption].
  intros d ->. unfold process_item.
  destruct (label_in (get_default key_label d) hashtag_labels);
    [|exists d; repeat split].
  destruct (differs (fix_value (get_default key_value d)) (get_default key_value d)) eqn:D;
    [|exists d; repeat split].
  exists (dict_set key_value (fix_value (get_default key_value d)) d).
  split; [reflexivity|]. split.
  - eapply dict_set_keys. exact (differs_has_value d D).
  - intros k Hk. apply dict_get_set_other. assumption.
Qed.

Lemma process_json_file_shape_witness :
  exists items',
    dict_get key_data (fst (process_json_file fan_name_profile)) = Some (JList items') /\
    dict_keys (fst (process_json_file fan_name_profile)) = dict_keys fan_name_profile /\
    List.length items' = 1 /\
    Forall2
      (fun item item' =>
         forall d, item = JDict d ->
           exists d', item' = JDict d' /\ dict_keys d' = dict_keys d /\
             forall k, k <> key_value -> dict_get k d' = dict_get k d)
      [ JDict [ (key_label, JStr (u "팬네임")); (key_value, JStr (u "ミーム:そらとも")) ] ]
      items'.
Proof.
  apply (@process_json_file_shape fan_name_profile
           [ JDict [ (key_label, JStr (u "팬네임"));
                     (key_value, JStr (u "ミーム:そらとも")) ] ]).
  reflexivity.
Defined.

End ProcessJsonFileFlag.

Section ProcessFileFacts.

Import ProcessFile.

Lemma legacy_fix_again (s : pystr) :
  Legacy.fix_hashtag_labels (Legacy.fix_hashtag_labels s) = Legacy.fix_hashtag_labels s.
Proof.
  rewrite (legacy_fix_replace_all (Legacy.fix_hashtag_labels s)).
  apply replace_all_token_free.
  rewrite legacy_fix_replace_all. apply replace_all_clears, legacy_table_inert.
Qed.

(** A turn on the item a turn has produced changes nothing. *)
Lemma process_item_again (item item' : json) (m : bool) :
  process_item item = Some (item', m) -> process_item item' = Some (item', false).
Proof.
  destruct item; try discriminate.
  - simpl. destruct (py_in key_value s) eqn:E; [discriminate|].
    intros H. injection H as <- <-. simpl. rewrite E. reflexivity.
  - simpl. destruct (existsb _ l) eqn:E; [discriminate|].
    intros H. injection H as <- <-. simpl. rewrite E. reflexivity.
  - unfold process_item.
    destruct (dict_get key_value d) as [[| | | |original| |]|] eqn:E;
      try (intros H; injection H as <- <-; rewrite E; reflexivity).
    destruct (str_eqb original (Legacy.fix_hashtag_labels original)) eqn:Q; simpl.
    + intros H. injection H as <- <-. rewrite E, Q. reflexivity.
    + intros H. injection H as <- <-.
      rewrite dict_get_set_same, legacy_fix_again, str_eqb_refl. reflexivity.
Qed.

(** The flag of a turn is set exactly when the turn changes the item. *)
Lemma legacy_process_item_flag (item item' : json) (m : bool) :
  process_item item = Some (item', m) -> (m = false <-> item' = item).
Proof.
  destruct item; try discriminate.
  - simpl. destruct (py_in key_value s); [discriminate|].
    intros H. injection H as <- <-. split; reflexivity.
  - simpl. destruct (existsb _ l); [discriminate|].
    intros H. injection H as <- <-. split; reflexivity.
  - unfold process_item.
    destruct (dict_get key_value d) as [[| | | |original| |]|] eqn:E;
      try (intros H; injection H as <- <-; split; reflexivity).
    destruct (str_eqb original (Legacy.fix_hashtag_labels original)) eqn:Q; simpl.
    + intros H. injection H as <- <-. split; reflexivity.
    + intros H. injection H as <- <-. split; [discriminate|].
      intros F. injection F as F. exfalso.
      assert (G : dict_get key_value
                    (dict_set key_value (JStr (Legacy.fix_hashtag_labels original)) d)
                  = Some (JStr (Legacy.fix_hashtag_labels original)))
        by apply dict_get_set_same.
      rewrite F, E in G. injection G as G.
      rewrite <- G, str_eqb_refl in Q. discriminate.
Qed.

Lemma legacy_process_items_again (items items' : list json) (b b' c : bool) :
  process_items items b = Some (items', b') ->
  process_items items' c = Some (items', c).
Proof.
  revert items' b b' c; induction items as [|item items IH]; intros items' b b' c; simpl.
  - intros H. injection H as <- <-. reflexivity.
  - destruct (process_item item) as [[item1 m]|] eqn:E; [|discriminate].
    destruct (process_items items (b || m)) as [[rest' b1]|] eqn:F; [|discriminate].
    intros H. injection H as <- <-. simpl.
    rewrite (process_item_again _ E), orb_false_r, (IH _ _ _ c F). reflexivity.
Qed.

Lemma legacy_process_items_flag (items items' : list json) (b b' : bool) :
  process_items items b = Some (items', b') ->
  (b' = false <-> b = false /\ items' = items).
Proof.
  revert items' b b'; induction items as [|item items IH]; intros items' b b'; simpl.
  - intros H. injection H as <- <-. split; [intros ->; split; reflexivity | intros [-> _]; reflexivity].
  - destruct (process_item item) as [[item1 m]|] eqn:E; [|discriminate].
    destruct (process_items items (b || m)) as [[rest' b1]|] eqn:F; [|discriminate].
    intros H. injection H as <- <-.
    pose proof (legacy_process_item_flag _ E) as Hm.
    specialize (IH _ _ _ F). rewrite IH, orb_false_iff. split.
    + intros [[-> Hmf] ->]. apply Hm in Hmf. subst. split; reflexivity.
    + intros [-> G]. injection G as G1 G2. apply Hm in G1. subst. repeat split.
Qed.

(** [process_file] on the content it has produced finds nothing to
    change, and it returns [True] exactly when the content it leaves
    differs from the content it was given. *)
Theorem process_file_idempotent (data data' : dict json) (modified : bool) :
  process_file data = Some (data', modified) ->
  process_file data' = Some (data', false) /\
  (modified = false <-> data' = data).
Proof.
  unfold process_file.
  destruct (dict_get key_data data) as [[| | | | |items|]|] eqn:E;
    try (intros H; injection H as <- <-; rewrite E; split; [reflexivity | split; reflexivity]).
  destruct (process_items items false) as [[items' b]|] eqn:F; [|discriminate].
  intros H. injection H as <- <-.
  rewrite dict_get_set_same, (legacy_process_items_again _ _ false F), dict_set_twice.
  split; [reflexivity|].
  rewrite (legacy_process_items_flag _ _ F). split.
  - intros [_ ->]. apply dict_set_get. assumption.
  - intros G. split; [reflexivity|].
    assert (K : dict_get key_data (dict_set key_data (JList items') data)
                = Some (JList items')) by apply dict_get_set_same.
    rewrite G, E in K. injection K as K. symmetry. assumption.
Qed.

Lemma process_file_idempotent_witness :
  process_file
    [ (key_data, JList [ JDict [ (ProcessJsonFile.key_label, JStr (u "팬네임"));
                                 (key_value, JStr (u "밈: そらとも")) ] ]) ]
  = Some ([ (key_data, JList [ JDict [ (ProcessJsonFile.key_label, JStr (u "팬네임"));
                                       (key_value, JStr (u "밈: そらとも")) ] ]) ],
          false).
Proof.
  apply (@process_file_idempotent fan_name_profile _ true).
  vm_compute. reflexivity.
Defined.

(** [process_file] does not fail on a file whose items are objects. *)
Theorem process_file_objects (data : dict json) :
  (forall items, dict_get key_data data = Some (JList items) ->
                 Forall (fun item => exists d, item = JDict d) items) ->
  exists result, process_file data = Some result.
Proof.
  intros H. unfold process_file.
  destruct (dict_get key_data data) as [[| | | | |items|]|] eqn:E;
    try (eexists; reflexivity).
  specialize (H items eq_refl).
  assert (G : forall b, exists r, process_items items b = Some r).
  { clear E. induction H as [|item items [d ->] _ IH]; intros b.
    - eexists. reflexivity.
    - cbn [process_items].
      assert (K : exists r, process_item (JDict d) = Some r).
      { unfold process_item. destruct (dict_get key_value d) as [[| | | |original| |]|];
          try (eexists; reflexivity).
        destruct (negb (str_eqb original (Legacy.fix_hashtag_labels original)));
          eexists; reflexivity. }
      destruct K as [[item' m] ->].
      destruct (IH (b || m)) as [[rest' b'] ->]. eexists. reflexivity. }
  destruct (G false) as [[items' b] ->]. eexists. reflexivity.
Qed.

Lemma process_file_objects_witness :
  exists result, process_file fan_name_profile = Some result.
Proof.
  apply process_file_objects. intros items H.
  injection H as <-. constructor; [|constructor].
  eexists. reflexivity.
Defined.

End ProcessFileFacts.

Section ProcessCombinedFacts.

Import ProcessCombined.

Lemma combined_items (items items' : list json) (c n : nat) :
  process_items items c = Some (items', n) ->
  c <= n /\ (n = c <-> items' = items) /\
  forall b, exists b', ProcessFile.process_items items b = Some (items', b').
Proof.
  revert items' c n; induction items as [|item items IH]; intros items' c n; simpl.
  - intros H. injection H as <- <-.
    split; [lia|]. split; [split; reflexivity|].
    intros b. exists b. reflexivity.
  - destruct (ProcessFile.process_item item) as [[item1 m]|] eqn:E; [|discriminate].
    destruct (process_items items (if m then S c else c)) as [[rest' n1]|] eqn:F;
      [|discriminate].
    intros H. injection H as <- <-.
    destruct (IH _ _ _ F) as (Hle & Hiff & Hfile).
    pose proof (legacy_process_item_flag _ E) as Hm.
    split; [destruct m; lia|]. split.
    + split.
      * intros ->. destruct m; [lia|].
        f_equal; [apply Hm; reflexivity | apply Hiff; reflexivity].
      * intros G. injection G as G1 G2.
        apply Hm in G1. subst m. apply Hiff. assumption.
    + intros b. destruct (Hfile (b || m)) as [b' ->]. exists b'. reflexivity.
Qed.

Lemma combined_profile (profile profile' : json) (c n : nat) :
  process_profile profile c = Some (profile', n) ->
  c <= n /\ (n = c <-> profile' = profile) /\
  forall d, profile = JDict d ->
    exists d' b, ProcessFile.process_file d = Some (d', b) /\ profile' = JDict d'.
Proof.
  destruct profile; try discriminate.
  - simpl. destruct (py_in key_data s); [discriminate|].
    intros H. injection H as <- <-. split; [lia|]. split; [split; reflexivity|].
    intros d H. discriminate.
  - simpl. destruct (existsb _ l); [discriminate|].
    intros H. injection H as <- <-. split; [lia|]. split; [split; reflexivity|].
    intros d H. discriminate.
  - unfold process_profile, ProcessFile.process_file.
    change ProcessFile.key_data with key_data.
    destruct (dict_get key_data d) as [[| | | | |items|]|] eqn:E;
      try (intros H; injection H as <- <-; split; [lia|]; split; [split; reflexivity|];
           intros dd H0; injection H0 as H0; subst dd; exists d, false;
           rewrite E; split; reflexivity).
    destruct (process_items items c) as [[items' n1]|] eqn:F; [|discriminate].
    intros H. injection H as <- <-.
    destruct (combined_items _ _ F) as (Hle & Hiff & Hfile).
    split; [assumption|]. split.
    + rewrite Hiff. split.
      * intros ->. rewrite (dict_set_get _ _ E). reflexivity.
      * intros G. injection G as G.
        assert (K : dict_get key_data (dict_set key_data (JList items') d)
                    = Some (JList items')) by apply dict_get_set_same.
        rewrite G, E in K. injection K as K. symmetry. assumption.
    + intros dd H0. injection H0 as H0. subst dd. rewrite E.
      destruct (Hfile false) as [b' ->].
      exists (dict_set key_data (JList items') d), b'. split; reflexivity.
Qed.

(** The loop of [main] over the combined file keeps the slugs, treats
    every profile object as [process_file] treats a profile file, and
    counts zero exactly when it has changed nothing, which is when
    [main] does not write the file back. *)
Theorem process_all_spec (all_data all_data' : dict json) (modified_count : nat) :
  process_all all_data = Some (all_data', modified_count) ->
  dict_keys all_data' = dict_keys all_data /\
  (modified_count = 0 <-> all_data' = all_data) /\
  Forall2
    (fun entry entry' =>
       forall d, snd entry = JDict d ->
         exists d' b, ProcessFile.process_file d = Some (d', b) /\ snd entry' = JDict d')
    all_data all_data'.
Proof.
  unfold process_all. generalize 0 as c. revert all_data' modified_count.
  induction all_data as [|[slug profile] rest IH]; intros all_data' n c; simpl.
  - intros H. injection H as <- <-.
    split; [reflexivity|]. split; [split; reflexivity | constructor].
  - destruct (process_profile profile c) as [[profile' n1]|] eqn:E; [|discriminate].
    destruct (process_profiles rest n1) as [[rest' n2]|] eqn:F; [|discriminate].
    intros H. injection H as <- <-.
    destruct (combined_profile _ _ E) as (Hle & Hiff & Hfile).
    assert (Hmono : n1 <= n2 /\ (n2 = n1 <-> rest' = rest)).
    { clear - F. revert rest' n1 n2 F.
      induction rest as [|[s p] rest IH]; intros rest' n1 n2; simpl.
      - intros H. injection H as <- <-. split; [lia | split; reflexivity].
      - destruct (process_profile p n1) as [[p' k]|] eqn:E; [|discriminate].
        destruct (process_profiles rest k) as [[r' k']|] eqn:F; [|discriminate].
        intros H. injection H as <- <-.
        destruct (combined_profile _ _ E) as (Hle & Hiff & _).
        destruct (IH _ _ _ F) as (Hle' & Hiff').
        split; [lia|]. split.
        + intros ->. assert (k = n1) by lia. subst k.
          f_equal; [f_equal; apply Hiff; reflexivity | apply Hiff'; reflexivity].
        + intros G. injection G as G1 G2.
          apply Hiff in G1. apply Hiff' in G2. lia. }
    destruct Hmono as (Hle2 & Hiff2).
    destruct (IH _ _ _ F) as (Hkeys & _ & Hall).
    split; [simpl; f_equal; assumption|]. split.
    + split.
      * intros G. assert (n1 = c) by lia. assert (n2 = n1) by lia.
        f_equal; [f_equal; apply Hiff; assumption | apply Hiff2; assumption].
      * intros G. injection G as G1 G2.
        apply Hiff in G1. apply Hiff2 in G2. lia.
    + constructor; [|assumption]. simpl. assumption.
Qed.

Lemma process_all_spec_witness :
  dict_keys [ (u "tokino-sora", JDict fan_name_profile) ] = [ u "tokino-sora" ].
Proof.
  apply (proj1
    (@process_all_spec [ (u "tokino-sora", JDict fan_name_profile) ]
       [ (u "tokino-sora",
          JDict [ (key_data,
                   JList [ JDict [ (ProcessJsonFile.key_label, JStr (u "팬네임"));
                                   (ProcessJsonFile.key_value, JStr (u "밈: そらとも")) ] ]) ]) ]
       1 ltac:(vm_compute; reflexivity))).
Defined.

End ProcessCombinedFacts.

(* ================================================================== *)
(** * The lookup tables built by the member scripts *)
(* ================================================================== *)

Section Lookups.

Lemma str_eqb_sym (a b : pystr) : str_eqb a b = str_eqb b a.
Proof.
  destruct (str_eqb a b) eqn:E.
  - apply str_eqb_eq in E. subst. symmetry. apply str_eqb_refl.
  - symmetry. apply str_eqb_neq. apply str_eqb_neq in E. congruence.
Qed.

Lemma dict_get_set {V : Type} (k k' : pystr) (v : V) (d : dict V) :
  dict_get k (dict_set k' v d) = if str_eqb k' k then Some v else dict_get k d.
Proof.
  destruct (str_eqb k' k) eqn:E.
  - apply str_eqb_eq in E. subst. apply dict_get_set_same.
  - apply dict_get_set_other. apply str_eqb_neq in E. congruence.
Qed.

Lemma normalize_english_name_never_robocosan (n : pystr) :
  SyncOfficialNames.normalize_english_name n <> u "Robocosan".
Proof.
  unfold SyncOfficialNames.normalize_english_name.
  destruct (str_eqb n (u "Robocosan")) eqn:E.
  - vm_compute. discriminate.
  - apply str_eqb_neq. assumption.
Qed.

(** [official_map] maps a name to the Japanese name of the last talent
    whose normalized English name it is; nothing is stored under the
    spelling ["Robocosan"], which is looked up as ["Roboco-san"]. *)
Theorem build_official_map_lookup (official_talents : list (pystr * pystr)) (k : pystr) :
  dict_get k (SyncOfficialNames.build_official_map official_talents)
  = option_map snd
      (find (fun talent =>
               str_eqb (SyncOfficialNames.normalize_english_name (fst talent)) k)
            (rev official_talents)) /\
  dict_get (u "Robocosan") (SyncOfficialNames.build_official_map official_talents) = None.
Proof.
  assert (H : forall key,
    dict_get key (SyncOfficialNames.build_official_map official_talents)
    = option_map snd
        (find (fun talent =>
                 str_eqb (SyncOfficialNames.normalize_english_name (fst talent)) key)
              (rev official_talents))).
  { intros key. unfold SyncOfficialNames.build_official_map.
    induction official_talents as [|[e j] ts IH] using rev_ind; [reflexivity|].
    rewrite fold_left_app, rev_unit. simpl fold_left. simpl find.
    rewrite dict_get_set.
    destruct (str_eqb (SyncOfficialNames.normalize_english_name e) key);
      [reflexivity | apply IH]. }
  split; [apply H|].
  rewrite H. clear H.
  generalize (rev official_talents) as l.
  induction l as [|[e j] ts IH]; [reflexivity|].
  cbn [find fst].
  destruct (str_eqb (SyncOfficialNames.normalize_english_name e) (u "Robocosan")) eqn:E;
    [|exact IH].
  apply str_eqb_eq in E. exfalso.
  apply (normalize_english_name_never_robocosan e). assumption.
Qed.

Lemma dict_set_keys_in {V : Type} (k : pystr) (v : V) (d : dict V) (x : pystr) :
  In x (dict_keys (dict_set k v d)) <-> x = k \/ In x (dict_keys d).
Proof.
  unfold dict_keys. induction d as [|[k0 v0] d IH]; simpl.
  - split; [intros [<- | []]; left; reflexivity | intros [-> | []]; left; reflexivity].
  - destruct (str_eqb k0 k) eqn:E; simpl.
    + apply str_eqb_eq in E. subst. intuition congruence.
    + rewrite IH. intuition congruence.
Qed.

Lemma dict_set_keys_nodup {V : Type} (k : pystr) (v : V) (d : dict V) :
  NoDup (dict_keys d) -> NoDup (dict_keys (dict_set k v d)).
Proof.
  unfold dict_keys. induction d as [|[k0 v0] d IH]; simpl; intros H.
  - constructor; [intros [] | constructor].
  - inversion H as [|? ? Hnot Hd]; subst.
    destruct (str_eqb k0 k) eqn:E; simpl.
    + constructor; assumption.
    + constructor; [|apply IH; assumption].
      intros G. apply (dict_set_keys_in k v d k0) in G as [G | G].
      * subst. rewrite str_eqb_refl in E. discriminate.
      * contradiction.
Qed.

Lemma fold_dict_set_keys (deny : pystr -> bool) (names : list pystr) (d : dict bool) :
  NoDup (dict_keys d) ->
  let d' := fold_left
      (fun official_ja_map ja_name =>
         if deny ja_name then official_ja_map else dict_set ja_name true official_ja_map)
      names d in
  NoDup (dict_keys d') /\
  forall x, In x (dict_keys d') <->
            In x (dict_keys d) \/ In x (filter (fun n => negb (deny n)) names).
Proof.
  revert d; induction names as [|n names IH]; intros d Hd; cbn [fold_left filter].
  - split; [assumption | intros x; simpl; tauto].
  - destruct (deny n) eqn:E; cbn [negb].
    + apply IH. assumption.
    + destruct (IH (dict_set n true d) (dict_set_keys_nodup n true d Hd)) as [H1 H2].
      split; [assumption|].
      intros x. rewrite H2, dict_set_keys_in. simpl. intuition congruence.
Qed.

(** The keys of [official_ja_map] of [update_members] list every name
    outside the deny list once: they are an iteration order of the set
    [schedule_ja_names] that [sync_official_names] builds from the same
    file. *)
Theorem official_ja_map_keys (official_names : list pystr) :
  SyncOfficialNames.iteration_order official_names
    (UpdateMembers.keys (UpdateMembers.build_official_ja_map official_names)).
Proof.
  destruct (fold_dict_set_keys (fun n => list_in n denylist) official_names []
              (NoDup_nil pystr)) as [H1 H2].
  split; [exact H1|].
  intros x. rewrite (H2 x). simpl. tauto.
Qed.

End Lookups.

(* ================================================================== *)
(** * What a run of [sync_official_names] leaves *)
(* ================================================================== *)

Section SyncPost.

Import SyncOfficialNames.

Variable official_map : dict pystr.
Variable order : list pystr.

Lemma sync_nameJa_value (m : member) :
  nameJa (fst (sync_nameJa official_map m))
  = match dict_get (name m) official_map with
    | Some official_ja => Some official_ja
    | None => nameJa m
    end.
Proof.
  destruct (dict_get (name m) official_map) as [j|] eqn:E.
  - apply sync_nameJa_result. assumption.
  - unfold sync_nameJa. rewrite E. reflexivity.
Qed.

Lemma sync_nameJa_flag (m : member) :
  snd (sync_nameJa official_map m) = nameJa_differs official_map m.
Proof.
  unfold sync_nameJa, nameJa_differs.
  destruct (dict_get (name m) official_map); [|reflexivity].
  destruct (negb (opt_str_eqb (nameJa m) p)); reflexivity.
Qed.

Lemma add_nameKo_value (m : member) :
  snd (add_nameKo m) = nameKo_missing m /\
  nameKo (fst (add_nameKo m))
  = if nameKo_missing m
    then Some (match first_ko m with Some first => first | None => name m end)
    else nameKo m.
Proof.
  unfold add_nameKo, first_ko. destruct (nameKo_missing m); [|split; reflexivity].
  destruct (truthy_aliases key_ko m) as [[|first rest]|]; split; reflexivity.
Qed.

Lemma ensure_ja_other (m : member) (k : pystr) :
  k <> key_ja -> dict_get k (ensure_ja m) = alias_get k m.
Proof.
  intros Hk. unfold ensure_ja, alias_get. destruct (aliases m) as [d|].
  - destruct (dict_get key_ja d); [reflexivity|].
    apply dict_get_set_other. assumption.
  - change (dict_get k (dict_set key_ja (@nil pystr) (@nil (pystr * list pystr))) = None).
    rewrite dict_get_set_other by assumption. reflexivity.
Qed.

(** The fields a loop turn leaves: [name] is kept; [nameJa] is the
    official name when the member is listed and is kept otherwise; a
    non-empty [nameKo] is kept and a missing or empty one becomes the
    first Korean alias or else [name]; the member has an [aliases]
    object with a [ja] list, and every other language is kept. *)
Theorem sync_member_fields (c : counters) (m : member) :
  let m' := fst (sync_member official_map order c m) in
  name m' = name m /\
  nameJa m' = match dict_get (name m) official_map with
              | Some official_ja => Some official_ja
              | None => nameJa m
              end /\
  nameKo m' = (if nameKo_missing m
               then Some (match first_ko m with Some first => first | None => name m end)
               else nameKo m) /\
  alias_get key_ja m' = Some (ja_list m') /\
  forall k, k <> key_ja -> alias_get k m' = alias_get k m.
Proof.
  intros m'.
  destruct (sync_member_result official_map order c m) as (N & J & K & _ & A & _).
  fold m' in N, J, K, A.
  destruct (sync_nameJa_fields official_map m) as (N1 & K1 & A1).
  destruct (add_nameKo_fields (fst (sync_nameJa official_map m))) as (N2 & J2 & A2).
  destruct (add_nameKo_value (fst (sync_nameJa official_map m))) as (_ & K2).
  split; [assumption|]. split; [rewrite J, J2; apply sync_nameJa_value|].
  split.
  - rewrite K, K2. unfold nameKo_missing, first_ko, truthy_aliases.
    rewrite K1, A1, N1. reflexivity.
  - unfold alias_get at 1 2. rewrite A. split; [apply dict_get_set_same|].
    intros k Hk. rewrite dict_get_set_other by assumption.
    rewrite (ensure_ja_other _ Hk). unfold alias_get. rewrite A2, A1. reflexivity.
Qed.

Lemma add_schedule_names_nodup (member_ja : pystr) (names l : list pystr) (n : nat) :
  NoDup l -> NoDup (fst (add_schedule_names member_ja names l n)).
Proof.
  revert l n; induction names as [|s names IH]; intros l n Hl; [assumption|].
  simpl. destruct (matches_any s member_ja l); [|apply IH; assumption].
  unfold merge. destruct (list_in s l) eqn:E; simpl; [apply IH; assumption|].
  destruct (str_eqb s member_ja); simpl; apply IH; try assumption.
  apply NoDup_app_one; [assumption|]. apply list_in_not_In. assumption.
Qed.

(** What the loop appends was not in the list. *)
Lemma add_schedule_names_new (member_ja : pystr) (names l ext : list pystr) (n : nat) :
  fst (add_schedule_names member_ja names l n) = l ++ ext ->
  forall a, In a ext -> ~ In a l.
Proof.
  revert l ext n; induction names as [|s names IH]; intros l ext n H a Ha.
  - simpl in H. rewrite <- (app_nil_r l) in H at 1. apply app_inv_head in H.
    subst. contradiction.
  - simpl in H. destruct (matches_any s member_ja l); [|apply (IH l ext n); assumption].
    unfold merge in H. destruct (list_in s l) eqn:Q; simpl in H;
      [apply (IH l ext n); assumption|].
    destruct (str_eqb s member_ja); simpl in H; [apply (IH l ext n); assumption|].
    destruct (add_schedule_names_appends member_ja names (l ++ [s]) (S n))
      as (ext' & Hext' & _).
    pose proof H as H'. rewrite Hext' in H'. simpl in H'.
    rewrite <- app_assoc in H'. apply app_inv_head in H'. simpl in H'. subst ext.
    destruct Ha as [<- | Ha].
    + apply list_in_not_In. assumption.
    + intros Hl. apply (IH (l ++ [s]) ext' (S n)) with (a := a).
      * rewrite Hext'. reflexivity.
      * assumption.
      * apply in_or_app. left. assumption.
Qed.

(** The [ja] aliases a loop turn leaves: the old list, followed by
    schedule names that were not in it and differ from the member's
    [nameJa]; a list without duplicates stays without duplicates. *)
Theorem sync_member_appends (c : counters) (m : member) :
  let m' := fst (sync_member official_map order c m) in
  (exists ext,
     ja_list m' = ja_list m ++ ext /\
     forall a, In a ext -> In a order /\ a <> member_ja_of m' /\ ~ In a (ja_list m)) /\
  (NoDup (ja_list m) -> NoDup (ja_list m')).
Proof.
  intros m'.
  destruct (sync_member_result official_map order c m) as (_ & J & _ & _ & _ & L).
  fold m' in J, L.
  assert (E : member_ja_of m'
              = member_ja_of (fst (add_nameKo (fst (sync_nameJa official_map m))))).
  { unfold member_ja_of. rewrite J. reflexivity. }
  rewrite <- E in L. split.
  - destruct (add_schedule_names_appends (member_ja_of m') order (ja_list m) 0)
      as (ext & Hext & Hin).
    exists ext. rewrite L, Hext. split; [reflexivity|].
    intros a Ha. destruct (Hin a Ha) as [H1 H2]. repeat split; try assumption.
    apply (add_schedule_names_new (member_ja_of m') order (ja_list m) ext 0);
      [rewrite Hext; reflexivity | assumption].
  - intros Hl. rewrite L. apply add_schedule_names_nodup. assumption.
Qed.

End SyncPost.

Lemma sync_member_appends_witness :
  NoDup (ja_list (fst (SyncOfficialNames.sync_member [] [u "そら"]
                         SyncOfficialNames.zero sora))).
Proof.
  apply (proj2 (sync_member_appends [] [u "そら"] SyncOfficialNames.zero sora)).
  apply NoDup_nil.
Defined.

Section SyncCounters.

Import SyncOfficialNames.

Variable official_map : dict pystr.
Variable order : list pystr.

(** The test whether a loop turn counts the member as updated. *)
Let touched (m : member) : bool :=
  nameJa_differs official_map m || nameKo_missing m
  || negb (aliases_gained official_map order m =? 0).

Lemma sync_member_counters_step (c : counters) (m : member) :
  sync_member official_map order c m =
  (synced official_map order m,
   {| updated_count := updated_count c + (if touched m then 1 else 0);
      nameJa_updated := nameJa_updated c + (if nameJa_differs official_map m then 1 else 0);
      nameKo_added := nameKo_added c + (if nameKo_missing m then 1 else 0);
      ja_alias_added := ja_alias_added c + aliases_gained official_map order m |}).
Proof.
  assert (G : snd (add_schedule_names
                     (member_ja_of (fst (add_nameKo (fst (sync_nameJa official_map m)))))
                     order
                     (ja_aliases_of (ensure_ja (fst (add_nameKo
                                                       (fst (sync_nameJa official_map m))))))
                     0)
              = aliases_gained official_map order m).
  { unfold aliases_gained, synced.
    destruct (sync_member_result official_map order zero m) as (_ & _ & _ & L2 & _ & L).
    rewrite L, ja_aliases_of_ensure_ja, L2.
    destruct (add_schedule_names_appends
                (member_ja_of (fst (add_nameKo (fst (sync_nameJa official_map m)))))
                order (ja_list m) 0) as (ext & -> & _).
    simpl. rewrite length_app. lia. }
  assert (K : snd (add_nameKo (fst (sync_nameJa official_map m))) = nameKo_missing m).
  { destruct (add_nameKo_value (fst (sync_nameJa official_map m))) as [-> _].
    destruct (sync_nameJa_fields official_map m) as (_ & K1 & _).
    unfold nameKo_missing. rewrite K1. reflexivity. }
  unfold synced, touched. rewrite (sync_member_counters official_map order zero c).
  rewrite (sync_member_unfold official_map order c m). cbv zeta. cbn [fst snd].
  rewrite G, K, sync_nameJa_flag. reflexivity.
Qed.

Lemma sync_members_counters (members : list member) (c : counters) :
  sync_members official_map order members c =
  (map (synced official_map order) members,
   {| updated_count := updated_count c + List.length (filter touched members);
      nameJa_updated :=
        nameJa_updated c + List.length (filter (nameJa_differs official_map) members);
      nameKo_added := nameKo_added c + List.length (filter nameKo_missing members);
      ja_alias_added :=
        ja_alias_added c + list_sum (map (aliases_gained official_map order) members) |}).
Proof.
  revert c; induction members as [|m members IH]; intros c.
  - simpl. rewrite !Nat.add_0_r. destruct c. reflexivity.
  - assert (F : forall f : member -> bool,
              List.length (filter f (m :: members))
              = (if f m then 1 else 0) + List.length (filter f members)).
    { intros f. simpl. destruct (f m); reflexivity. }
    cbn [sync_members]. rewrite sync_member_counters_step, IH.
    cbn [map list_sum updated_count nameJa_updated nameKo_added ja_alias_added].
    rewrite !F. f_equal. f_equal; cbn [list_sum fold_right]; symmetry; apply Nat.add_assoc.
Qed.

End SyncCounters.

(** The summary of [main]: the registry holds, in order, the member
    each loop turn leaves; [nameJa_updated] counts the members listed
    under another [nameJa], [nameKo_added] the members without a
    non-empty [nameKo], [ja_alias_added] the aliases appended, and
    [updated_count] the members for which one of the three happened. *)
Theorem sync_main_counters
    (official_talents : list (pystr * pystr)) (order : list pystr)
    (members : list member) :
  let official_map := SyncOfficialNames.build_official_map official_talents in
  let result := SyncOfficialNames.main official_talents order members in
  fst result = map (synced official_map order) members /\
  SyncOfficialNames.nameJa_updated (snd result)
    = List.length (filter (nameJa_differs official_map) members) /\
  SyncOfficialNames.nameKo_added (snd result)
    = List.length (filter nameKo_missing members) /\
  SyncOfficialNames.ja_alias_added (snd result)
    = list_sum (map (aliases_gained official_map order) members) /\
  SyncOfficialNames.updated_count (snd result)
    = List.length
        (filter (fun m => nameJa_differs official_map m || nameKo_missing m
                          || negb (aliases_gained official_map order m =? 0))
                members).
Proof.
  intros official_map result. subst result. unfold SyncOfficialNames.main.
  fold official_map. rewrite sync_members_counters. simpl. repeat split.
Qed.

(** A member without [nameJa] that [official_map] does not list has,
    after its loop turn, every non-empty schedule name among its [ja]
    aliases: the empty default of [member.get('nameJa', '')] is
    contained in every name. *)
Theorem sync_member_without_nameJa
    (official_map : dict pystr) (order : list pystr)
    (c : SyncOfficialNames.counters) (m : member) (s : pystr) :
  nameJa m = None ->
  dict_get (name m) official_map = None ->
  In s order -> s <> [] ->
  In s (ja_list (fst (SyncOfficialNames.sync_member official_map order c m))).
Proof.
  intros HJ Hmap Hs Hne.
  destruct (sync_member_result official_map order c m) as (_ & _ & _ & _ & _ & L).
  destruct (add_nameKo_fields (fst (SyncOfficialNames.sync_nameJa official_map m)))
    as (_ & J2 & _).
  pose proof (sync_nameJa_value official_map m) as J1. rewrite Hmap, HJ in J1.
  assert (E : member_ja_of (fst (SyncOfficialNames.add_nameKo
                                   (fst (SyncOfficialNames.sync_nameJa official_map m))))
              = []).
  { unfold member_ja_of. rewrite J2, J1. reflexivity. }
  rewrite L, E.
  destruct (add_schedule_names_receives [] order (ja_list m) 0 s Hs) as [G | G].
  - unfold matches_any. rewrite (py_in_nil s), orb_true_r. reflexivity.
  - contradiction.
  - assumption.
Qed.

Lemma sync_member_without_nameJa_witness :
  In (u "ロボ子さん")
     (ja_list (fst (SyncOfficialNames.sync_member [] [u "ロボ子さん"]
                      SyncOfficialNames.zero sora_without_nameJa))).
Proof.
  apply sync_member_without_nameJa.
  - reflexivity.
  - reflexivity.
  - left. reflexivity.
  - vm_compute. discriminate.
Defined.

(* ================================================================== *)
(** * What a run of [update_members] leaves *)
(* ================================================================== *)

Section UpdatePost.

Import UpdateMembers.

Variable member_ja : pystr.

Lemma add_official_names_appends (names l : list pystr) (n : nat) :
  exists ext,
    add_official_names member_ja names l n = (l ++ ext, n + List.length ext) /\
    forall a, In a ext -> In a names.
Proof.
  revert l n; induction names as [|s names IH]; intros l n.
  - exists []. simpl. rewrite app_nil_r, Nat.add_0_r. split; [reflexivity | intros ? []].
  - simpl. destruct (matches_any s member_ja l).
    + unfold merge. destruct (list_in s l); simpl.
      * destruct (IH l n) as (ext & -> & Hext). exists ext. split; [reflexivity|].
        intros a Ha. right. apply Hext. assumption.
      * destruct (IH (l ++ [s]) (S n)) as (ext & -> & Hext).
        exists (s :: ext). rewrite <- app_assoc. simpl. rewrite Nat.add_succ_r.
        split; [reflexivity|].
        intros a [<- | Ha]; [left; reflexivity | right; apply Hext; assumption].
    + destruct (IH l n) as (ext & -> & Hext). exists ext. split; [reflexivity|].
      intros a Ha. right. apply Hext. assumption.
Qed.

Lemma add_official_names_nodup (names l : list pystr) (n : nat) :
  NoDup l -> NoDup (fst (add_official_names member_ja names l n)).
Proof.
  revert l n; induction names as [|s names IH]; intros l n Hl; [assumption|].
  simpl. destruct (matches_any s member_ja l); [|apply IH; assumption].
  unfold merge. destruct (list_in s l) eqn:E; simpl; apply IH; try assumption.
  apply NoDup_app_one; [assumption|]. apply list_in_not_In. assumption.
Qed.

Lemma add_official_names_receives (names l : list pystr) (n : nat) (s : pystr) :
  In s names -> matches_any s member_ja l = true ->
  In s (fst (add_official_names member_ja names l n)).
Proof.
  revert l n; induction names as [|s0 names IH]; intros l n [].
  - subst s0. intros Hm. simpl. rewrite Hm. unfold merge.
    destruct (list_in s l) eqn:Hin; simpl.
    + apply list_in_In in Hin.
      destruct (add_official_names_appends names l n) as (ext & -> & _).
      simpl. apply in_or_app. left. assumption.
    + destruct (add_official_names_appends names (l ++ [s]) (S n)) as (ext & -> & _).
      simpl. apply in_or_app. left. apply in_or_app. right. left. reflexivity.
  - intros Hm. simpl. destruct (matches_any s0 member_ja l); [|apply IH; assumption].
    unfold merge. destruct (list_in s0 l); simpl; apply IH; try assumption.
    apply matches_any_app. assumption.
Qed.

End UpdatePost.

Section UpdateMember.

Import UpdateMembers.

Variable ja_names : list pystr.

Lemma um_add_nameKo_fields (m : member) :
  name (fst (add_nameKo m)) = name m /\
  nameJa (fst (add_nameKo m)) = nameJa m /\
  aliases (fst (add_nameKo m)) = aliases m /\
  nameKo (fst (add_nameKo m))
  = if nameKo_missing m
    then Some (match first_ko m with
               | Some first => first
               | None => romanize_to_korean (name m)
               end)
    else nameKo m.
Proof.
  unfold add_nameKo, first_ko. destruct (nameKo_missing m); [|repeat split].
  destruct (truthy_aliases key_ko m) as [[|first rest]|]; repeat split.
Qed.

Lemma truthy_aliases_ja_list (m : member) (l : list pystr) :
  truthy_aliases key_ja m = Some l -> ja_list m = l /\ alias_get key_ja m = Some l.
Proof.
  unfold truthy_aliases, ja_list, alias_get. destruct (aliases m) as [d|]; [|discriminate].
  destruct (dict_get key_ja d) as [[|a r]|]; try discriminate.
  intros H. injection H as <-. split; reflexivity.
Qed.

(** The member the loop body leaves, in closed form. *)
Lemma update_member_result (c : counters) (m : member) :
  let m1 := fst (add_nameKo m) in
  fst (update_member ja_names c m) =
    match truthy_aliases key_ja m, aliases m with
    | Some ja_aliases, Some d =>
      set_aliases m1
        (dict_set key_ja
           (fst (add_official_names (member_ja_of m) ja_names ja_aliases 0)) d)
    | _, _ => m1
    end.
Proof.
  intros m1. unfold update_member.
  destruct (um_add_nameKo_fields m) as (_ & HJ & HA & _).
  destruct (add_nameKo m) as [m1' ko_add] eqn:E. simpl in m1, HJ, HA. subst m1.
  assert (T : truthy_aliases key_ja m1' = truthy_aliases key_ja m).
  { unfold truthy_aliases. rewrite HA. reflexivity. }
  assert (MJ : member_ja_of m1' = member_ja_of m).
  { unfold member_ja_of. rewrite HJ. reflexivity. }
  rewrite T, MJ, HA.
  destruct (truthy_aliases key_ja m) as [ja_aliases|] eqn:Q; [|reflexivity].
  destruct (add_official_names (member_ja_of m) ja_names ja_aliases 0) as [l n].
  destruct (aliases m); reflexivity.
Qed.

(** The fields a loop turn of [update_members] leaves: [name] and
    [nameJa] are kept; a non-empty [nameKo] is kept and a missing or
    empty one becomes the first Korean alias or else the romanization
    of [name]; a member without a non-empty [ja] list keeps its
    [aliases] as they are; otherwise the [ja] list is the old list
    followed by official names that were not in it, a list without
    duplicates stays without duplicates, and every other language is
    kept. *)
Theorem update_member_fields (c : counters) (m : member) :
  let m' := fst (update_member ja_names c m) in
  name m' = name m /\
  nameJa m' = nameJa m /\
  nameKo m' = (if nameKo_missing m
               then Some (match first_ko m with
                          | Some first => first
                          | None => romanize_to_korean (name m)
                          end)
               else nameKo m) /\
  (truthy_aliases key_ja m = None -> aliases m' = aliases m) /\
  (forall k, k <> key_ja -> alias_get k m' = alias_get k m) /\
  (exists ext,
     ja_list m' = ja_list m ++ ext /\
     forall a, In a ext -> In a ja_names) /\
  (NoDup (ja_list m) -> NoDup (ja_list m')).
Proof.
  intros m'. subst m'. rewrite update_member_result.
  destruct (um_add_nameKo_fields m) as (HN & HJ & HA & HK).
  assert (JL : ja_list (fst (add_nameKo m)) = ja_list m).
  { unfold ja_list. rewrite HA. reflexivity. }
  assert (AG : forall k, alias_get k (fst (add_nameKo m)) = alias_get k m).
  { intros k. unfold alias_get. rewrite HA. reflexivity. }
  destruct (truthy_aliases key_ja m) as [ja_aliases|] eqn:T.
  - destruct (truthy_aliases_ja_list m T) as [L G].
    destruct (aliases m) as [d|] eqn:A; [|unfold alias_get in G; rewrite A in G; discriminate].
    destruct (add_official_names_appends (member_ja_of m) ja_names ja_aliases 0)
      as (ext & Hext & Hin).
    assert (JL' : ja_list (set_aliases (fst (add_nameKo m))
                    (dict_set key_ja
                       (fst (add_official_names (member_ja_of m) ja_names ja_aliases 0)) d))
                  = fst (add_official_names (member_ja_of m) ja_names ja_aliases 0)).
    { unfold ja_list. simpl. rewrite dict_get_set_same. reflexivity. }
    rewrite JL'. simpl name. simpl nameJa. simpl nameKo.
    split; [assumption|]. split; [assumption|]. split; [assumption|].
    split; [discriminate|]. split.
    + intros k Hk. unfold alias_get. simpl. rewrite A.
      apply dict_get_set_other. assumption.
    + split.
      * exists ext. rewrite Hext, L. split; [reflexivity | assumption].
      * rewrite L. apply add_official_names_nodup.
  - assert (A' : aliases (fst (add_nameKo m)) = aliases m) by assumption.
    destruct (aliases m) as [d|] eqn:A;
      (split; [assumption|]; split; [assumption|]; split; [assumption|];
       split; [intros _; rewrite A'; reflexivity|]; split; [intros k _; apply AG|];
       split; [exists []; rewrite app_nil_r; split; [assumption | intros ? []]
              | rewrite JL; trivial]).
Qed.

End UpdateMember.

Lemma update_member_fields_witness :
  NoDup (ja_list (fst (UpdateMembers.update_member [u "ときのそら"] UpdateMembers.zero
                         sora_with_alias))).
Proof.
  apply (proj2 (proj2 (proj2 (proj2 (proj2 (proj2
           (update_member_fields [u "ときのそら"] UpdateMembers.zero sora_with_alias))))))).
  apply NoDup_cons; [intros [] | apply NoDup_nil].
Defined.

(** In [update_members] a member with a non-empty [ja] list has, after
    its loop turn, every official name among its [ja] aliases that
    matches its [nameJa] or one of the aliases it had, its own [nameJa]
    included. *)
Theorem update_member_receives
    (ja_names : list pystr) (c : UpdateMembers.counters) (m : member)
    (ja_aliases : list pystr) (s : pystr) :
  truthy_aliases key_ja m = Some ja_aliases ->
  In s ja_names ->
  matches_any s (member_ja_of m) ja_aliases = true ->
  In s (ja_list (fst (UpdateMembers.update_member ja_names c m))).
Proof.
  intros T Hs Hm. rewrite update_member_result. rewrite T.
  destruct (truthy_aliases_ja_list m T) as [_ G].
  destruct (aliases m) as [d|] eqn:A; [|unfold alias_get in G; rewrite A in G; discriminate].
  unfold ja_list. simpl. rewrite dict_get_set_same.
  apply add_official_names_receives; assumption.
Qed.

Lemma update_member_receives_witness :
  In (u "ときのそら")
     (ja_list (fst (UpdateMembers.update_member [u "ときのそら"] UpdateMembers.zero
                      sora_with_alias))).
Proof.
  apply (@update_member_receives [u "ときのそら"] UpdateMembers.zero sora_with_alias
           [u "そら"] (u "ときのそら")).
  - reflexivity.
  - left. reflexivity.
  - vm_compute. reflexivity.
Defined.

(* ================================================================== *)
(** * What a run of [fix_korean_names] leaves *)
(* ================================================================== *)

Section FixKorean.

Import FixKoreanNames.

Lemma fix_member_step (r : report) (m : member) :
  fix_member r m =
  (ko_fixed m,
   {| updated := updated r + (if nameKo_differs m then 1 else 0);
      missing := missing r ++ (if unlisted m then [name m] else []) |}).
Proof.
  unfold ko_fixed, fix_member, nameKo_differs, unlisted.
  destruct (dict_get (name m) OFFICIAL_KOREAN_NAMES) as [new_ko|].
  - destruct (negb (str_eqb (old_ko_of m) new_ko)); simpl.
    + rewrite app_nil_r, Nat.add_1_r. reflexivity.
    + rewrite app_nil_r, Nat.add_0_r. destruct r. reflexivity.
  - rewrite Nat.add_0_r. destruct (nameKo_missing m); reflexivity.
Qed.

Lemma ko_fixed_name (m : member) : name (ko_fixed m) = name m.
Proof.
  unfold ko_fixed, fix_member.
  destruct (dict_get (name m) OFFICIAL_KOREAN_NAMES) as [new_ko|].
  - destruct (negb (str_eqb (old_ko_of m) new_ko)); reflexivity.
  - destruct (nameKo_missing m); reflexivity.
Qed.

(** After its loop turn a listed member has the listed [nameKo]. *)
Lemma ko_fixed_listed (m : member) (new_ko : pystr) :
  dict_get (name m) OFFICIAL_KOREAN_NAMES = Some new_ko ->
  nameKo (ko_fixed m) = Some new_ko.
Proof.
  intros E. unfold ko_fixed, fix_member. rewrite E.
  destruct (str_eqb (old_ko_of m) new_ko) eqn:Q; simpl; [|reflexivity].
  pose proof (table_value_nonempty _ _ official_values_nonempty E) as Hne.
  apply str_eqb_eq in Q. unfold old_ko_of in Q.
  destruct (nameKo m) as [k|]; congruence.
Qed.

Lemma set_nameKo_same (m : member) (k : pystr) :
  nameKo m = Some k -> set_nameKo m k = m.
Proof. destruct m as [n j ko a]. simpl. intros ->. reflexivity. Qed.

Lemma ko_fixed_again (m : member) :
  ko_fixed (ko_fixed m) = ko_fixed m /\ nameKo_differs (ko_fixed m) = false.
Proof.
  pose proof (ko_fixed_name m) as N.
  destruct (dict_get (name m) OFFICIAL_KOREAN_NAMES) as [new_ko|] eqn:E.
  - pose proof (ko_fixed_listed m E) as K.
    assert (D : nameKo_differs (ko_fixed m) = false).
    { unfold nameKo_differs. rewrite N, E. unfold old_ko_of. rewrite K.
      rewrite str_eqb_refl. reflexivity. }
    split; [|assumption].
    unfold ko_fixed at 1. unfold fix_member. rewrite N, E.
    unfold nameKo_differs in D. rewrite N, E in D. rewrite D. reflexivity.
  - assert (D : nameKo_differs (ko_fixed m) = false).
    { unfold nameKo_differs. rewrite N, E. reflexivity. }
    split; [|assumption].
    unfold ko_fixed at 1. unfold fix_member. rewrite N, E.
    destruct (nameKo_missing (ko_fixed m)) eqn:M; [|reflexivity].
    simpl. apply set_nameKo_same.
    unfold ko_fixed, fix_member in M |- *. rewrite E in M |- *.
    destruct (nameKo_missing m) eqn:M0; simpl in M |- *; [reflexivity|].
    congruence.
Qed.

Lemma fix_members_step (members : list member) (r : report) :
  fix_members members r =
  (map ko_fixed members,
   {| updated := updated r + List.length (filter nameKo_differs members);
      missing := missing r ++ map name (filter unlisted members) |}).
Proof.
  revert r; induction members as [|m members IH]; intros r.
  - simpl. rewrite app_nil_r, Nat.add_0_r. destruct r. reflexivity.
  - cbn [fix_members]. rewrite fix_member_step, IH.
    cbn [map filter updated missing]. f_equal. f_equal.
    + destruct (nameKo_differs m); cbn [List.length]; lia.
    + rewrite <- app_assoc. destruct (unlisted m); reflexivity.
Qed.

(** The report of [main]: the registry holds, in order, the member
    each loop turn leaves; [updated] counts the members listed under
    another [nameKo]; [missing] lists, in registry order, the names of
    the members the table does not list; a listed member has the
    listed [nameKo] afterwards, and [name] is kept. *)
Theorem fix_korean_main_report (members : list member) :
  fst (main members) = map ko_fixed members /\
  updated (snd (main members)) = List.length (filter nameKo_differs members) /\
  missing (snd (main members)) = map name (filter unlisted members) /\
  forall m, In m members ->
    name (ko_fixed m) = name m /\
    forall new_ko, dict_get (name m) OFFICIAL_KOREAN_NAMES = Some new_ko ->
                   nameKo (ko_fixed m) = Some new_ko.
Proof.
  unfold main. rewrite fix_members_step. simpl. repeat split.
  - apply ko_fixed_name.
  - apply ko_fixed_listed.
Qed.

(** A second run of [main] on the registry the first has produced
    changes no member and counts no update; it reports the same
    [missing] names. *)
Theorem fix_korean_main_twice (members : list member) :
  main (fst (main members))
  = (fst (main members),
     {| updated := 0; missing := missing (snd (main members)) |}).
Proof.
  unfold main. rewrite (fix_members_step members), (fix_members_step (map ko_fixed members)).
  cbn [fst snd updated missing app]. f_equal.
  - rewrite map_map. apply map_ext. intros m. apply ko_fixed_again.
  - f_equal.
    + induction members as [|m members IH]; [reflexivity|].
      cbn [map filter]. rewrite (proj2 (ko_fixed_again m)). assumption.
    + induction members as [|m members IH]; [reflexivity|].
      assert (U : unlisted (ko_fixed m) = unlisted m).
      { unfold unlisted. rewrite ko_fixed_name. reflexivity. }
      cbn [map filter]. rewrite U.
      destruct (unlisted m); cbn [map]; [|assumption].
      rewrite ko_fixed_name. f_equal. assumption.
Qed.

End FixKorean.

(* ================================================================== *)
(** * The scripts together *)
(* ================================================================== *)

Section Together.

Lemma mapping_in_official :
  forallb (fun p => match dict_get (fst p) FixKoreanNames.OFFICIAL_KOREAN_NAMES with
                    | Some v => str_eqb v (snd p)
                    | None => false
                    end)
          UpdateMembers.mapping = true.
Proof. vm_compute. reflexivity. Qed.

Lemma dict_get_entry {V : Type} (k : pystr) (v : V) (d : dict V) :
  dict_get k d = Some v -> In (k, v) d.
Proof.
  induction d as [|[k' v'] d IH]; simpl; [discriminate|].
  destruct (str_eqb k' k) eqn:E; intros H.
  - apply str_eqb_eq in E. injection H as ->. subst. left. reflexivity.
  - right. apply IH. assumption.
Qed.

(** Every name the table of [romanize_to_korean] knows is listed in
    [OFFICIAL_KOREAN_NAMES] with the same Korean spelling, so a
    [nameKo] that [update_members] has taken from its table is left as
    it is by [fix_korean_names] and not counted as updated. *)
Theorem romanized_accepted (m : member) (ko : pystr) (r : FixKoreanNames.report) :
  nameKo_missing m = true ->
  first_ko m = None ->
  dict_get (name m) UpdateMembers.mapping = Some ko ->
  dict_get (name m) FixKoreanNames.OFFICIAL_KOREAN_NAMES = Some ko /\
  nameKo (fst (UpdateMembers.add_nameKo m)) = Some ko /\
  FixKoreanNames.fix_member r (fst (UpdateMembers.add_nameKo m))
  = (fst (UpdateMembers.add_nameKo m), r).
Proof.
  intros M F E.
  assert (O : dict_get (name m) FixKoreanNames.OFFICIAL_KOREAN_NAMES = Some ko).
  { pose proof mapping_in_official as H. rewrite forallb_forall in H.
    specialize (H _ (dict_get_entry _ _ E)). cbn [fst snd] in H.
    destruct (dict_get (name m) FixKoreanNames.OFFICIAL_KOREAN_NAMES) as [v|];
      [|discriminate].
    apply str_eqb_eq in H. subst. reflexivity. }
  destruct (um_add_nameKo_fields m) as (N & _ & _ & K).
  rewrite M, F in K. unfold UpdateMembers.romanize_to_korean in K. rewrite E in K.
  split; [assumption|]. split; [assumption|].
  unfold FixKoreanNames.fix_member. rewrite N, O.
  unfold FixKoreanNames.old_ko_of. rewrite K, str_eqb_refl. reflexivity.
Qed.

Lemma romanized_accepted_witness :
  nameKo (fst (UpdateMembers.add_nameKo azki_fresh)) = Some (u "아즈키").
Proof.
  apply (proj1 (proj2 (@romanized_accepted azki_fresh (u "아즈키")
                         {| FixKoreanNames.updated := 0; FixKoreanNames.missing := [] |}
                         eq_refl eq_refl ltac:(vm_compute; reflexivity)))).
Defined.

(** The containment test is symmetric and holds between a string and
    itself; a match against an alias list stays a match when the list
    grows. *)
Theorem matches_symmetric (x y j : pystr) (l ext : list pystr) :
  matches x y = matches y x /\
  matches x x = true /\
  (matches_any x j l = true -> matches_any x j (l ++ ext) = true).
Proof.
  split; [apply matches_sym|]. split.
  - unfold matches. rewrite py_in_refl. reflexivity.
  - apply matches_any_app.
Qed.

Lemma matches_symmetric_witness :
  matches_any (u "そらとも") (u "ときのそら") ([u "そら"] ++ [u "空"]) = true.
Proof.
  apply (proj2 (proj2 (matches_symmetric (u "そらとも") [] (u "ときのそら")
                         [u "そら"] [u "空"]))).
  vm_compute. reflexivity.
Defined.

End Together.

Lemma sync_member_fields_witness :
  alias_get key_ko
    (fst (SyncOfficialNames.sync_member [] [u "そら"] SyncOfficialNames.zero
            sora_empty_ko_alias))
  = alias_get key_ko sora_empty_ko_alias.
Proof.
  apply (proj2 (proj2 (proj2 (proj2
           (sync_member_fields [] [u "そら"] SyncOfficialNames.zero sora_empty_ko_alias))))).
  vm_compute. discriminate.
Defined.

Lemma fix_korean_main_report_witness :
  nameKo (ko_fixed azki_fresh) = Some (u "아즈키").
Proof.
  apply (proj2 (proj2 (proj2 (proj2 (fix_korean_main_report [azki_fresh])))
                  azki_fresh (or_introl eq_refl))).
  vm_compute. reflexivity.
Defined.

(* ================================================================== *)
(** * The name test in the loops *)
(* ================================================================== *)



(* ================================================================== *)
(** * Who receives a schedule name *)
(* ================================================================== *)

(** Every name the loop appends matched at its turn: against
    [member_ja] or an alias in the list as it then was. *)
Lemma add_schedule_names_matched (member_ja : pystr) (names l ext : list pystr) (n : nat) :
  fst (SyncOfficialNames.add_schedule_names member_ja names l n) = l ++ ext ->
  forall pre a post, ext = pre ++ a :: post ->
    In a names /\ matches_any a member_ja (l ++ pre) = true /\
    a <> member_ja /\ ~ In a (l ++ pre).
Proof.
  revert l ext n; induction names as [|s names IH]; intros l ext n H pre a post Hext.
  - simpl in H. rewrite <- (app_nil_r l) in H at 1. apply app_inv_head in H.
    subst ext. destruct pre; discriminate.
  - assert (Hrest : forall l' n',
              fst (SyncOfficialNames.add_schedule_names member_ja names l' n') = l' ++ ext ->
              l' = l ->
              In a (s :: names) /\ matches_any a member_ja (l ++ pre) = true /\
              a <> member_ja /\ ~ In a (l ++ pre)).
    { intros l' n' G ->. destruct (IH l ext n' G pre a post Hext) as (H1 & H2).
      split; [right; assumption | assumption]. }
    simpl in H. destruct (matches_any s member_ja l) eqn:M;
      [|apply (Hrest l n); [assumption | reflexivity]].
    unfold SyncOfficialNames.merge in H. destruct (list_in s l) eqn:Q; simpl in H;
      [apply (Hrest l n); [assumption | reflexivity]|].
    destruct (str_eqb s member_ja) eqn:J; simpl in H;
      [apply (Hrest l n); [assumption | reflexivity]|].
    destruct (add_schedule_names_appends member_ja names (l ++ [s]) (S n))
      as (ext' & Hext' & _).
    pose proof H as H'. rewrite Hext' in H'. simpl in H'.
    rewrite <- app_assoc in H'. apply app_inv_head in H'. simpl in H'.
    rewrite <- H' in Hext. destruct pre as [|p pre]; simpl in Hext.
    + injection Hext as <- _. rewrite app_nil_r.
      split; [left; reflexivity|]. split; [assumption|].
      split; [apply str_eqb_neq; assumption | apply list_in_not_In; assumption].
    + injection Hext as <- Hext.
      assert (G : fst (SyncOfficialNames.add_schedule_names member_ja names (l ++ [s]) (S n))
                  = (l ++ [s]) ++ ext') by (rewrite Hext'; reflexivity).
      destruct (IH (l ++ [s]) ext' (S n) G pre a post Hext) as (H1 & H2 & H3 & H4).
      rewrite <- app_assoc in H2, H4. simpl in H2, H4.
      split; [right; assumption|]. repeat split; assumption.
Qed.

(** C4, amended: the loop over the schedule names runs for every
    member, whatever its place in the registry.  A member that a
    schedule name matches (through its [nameJa] or one of its [ja]
    aliases) has the name among its [ja] aliases after the run, unless
    the name is its [nameJa]: several members can receive the same
    name.  And a member receives a name only when the name matched at
    its turn: against the member's [nameJa] or an alias that was in the
    list then (one it had, or one appended earlier in the run), being
    neither the [nameJa] nor already in the list. *)
Theorem schedule_name_for_every_match
    (official_talents : list (pystr * pystr)) (order : list pystr)
    (members : list member) (i : nat) (m : member) :
  nth_error members i = Some m ->
  let m' := fst (SyncOfficialNames.sync_member
                   (SyncOfficialNames.build_official_map official_talents) order
                   SyncOfficialNames.zero m) in
  nth_error (fst (SyncOfficialNames.main official_talents order members)) i = Some m' /\
  (forall s, In s order ->
     matches_any s (member_ja_of m') (ja_list m) = true ->
     s = member_ja_of m' \/ In s (ja_list m')) /\
  (exists ext,
     ja_list m' = ja_list m ++ ext /\
     forall pre a post, ext = pre ++ a :: post ->
       In a order /\ matches_any a (member_ja_of m') (ja_list m ++ pre) = true /\
       a <> member_ja_of m' /\ ~ In a (ja_list m ++ pre)).
Proof.
  intros Hi m'.
  destruct (sync_member_result (SyncOfficialNames.build_official_map official_talents)
              order SyncOfficialNames.zero m) as (_ & J & _ & _ & _ & L).
  fold m' in J, L.
  assert (E : member_ja_of m'
              = member_ja_of (fst (SyncOfficialNames.add_nameKo
                                     (fst (SyncOfficialNames.sync_nameJa
                                             (SyncOfficialNames.build_official_map
                                                official_talents) m))))).
  { unfold member_ja_of. rewrite J. reflexivity. }
  rewrite <- E in L. split; [|split].
  - unfold SyncOfficialNames.main. rewrite sync_members_nth, Hi. reflexivity.
  - intros s Hs Hm. rewrite L. apply add_schedule_names_receives; assumption.
  - destruct (add_schedule_names_appends (member_ja_of m') order (ja_list m) 0)
      as (ext & Hext & _).
    exists ext. rewrite L, Hext. split; [reflexivity|].
    intros pre a post Hp.
    apply (@add_schedule_names_matched (member_ja_of m') order (ja_list m) ext 0)
      with (post := post); [rewrite Hext; reflexivity | exact Hp].
Qed.

Lemma schedule_name_for_every_match_witness :
  nth_error (fst (SyncOfficialNames.main [] [u "アビスガード"] [fuwawa; mococo])) 1
    = Some (fst (SyncOfficialNames.sync_member (SyncOfficialNames.build_official_map [])
                   [u "アビスガード"] SyncOfficialNames.zero mococo)) /\
  (u "アビスガード"
     = member_ja_of (fst (SyncOfficialNames.sync_member
                            (SyncOfficialNames.build_official_map [])
                            [u "アビスガード"] SyncOfficialNames.zero mococo))
   \/ In (u "アビスガード")
         (ja_list (fst (SyncOfficialNames.sync_member
                          (SyncOfficialNames.build_official_map [])
                          [u "アビスガード"] SyncOfficialNames.zero mococo)))).
Proof.
  pose proof (@schedule_name_for_every_match [] [u "アビスガード"] [fuwawa; mococo] 1 mococo
                eq_refl) as (H1 & H2 & _).
  split; [exact H1|].
  apply H2.
  - left. reflexivity.
  - vm_compute. reflexivity.
Defined.
